(** * cnifty: the content generation pipeline of [cnifty/content/generate_content.py]

    A shallow embedding of the generation pipeline (trait loading, rarity
    weight normalisation, unique combination sampling, statistics, metadata
    and image compositing) together with the properties of its
    specification, and of the reading of its metadata by
    [cnifty/ipfs/add_to_ipfs.py].

    Conventions of the embedding:
    - a Python exception is a value of [exn]; a call that may raise returns a
      [result];
    - numpy's [float64] is modelled by exact rationals extended with the IEEE
      special values, so that rounding is abstracted but division by zero is
      not;
    - the two library routines whose outcome is not fixed by their contract
      ([argsort] among equal keys, the bit generator behind [rng]) and the
      platform ([int], PIL) are interfaces, instantiated where a concrete run
      is evaluated. *)

From Stdlib Require Import QArith Qabs DecimalString.
From stdpp Require Import base option list sorting strings pretty gmap.

(** ** Python exceptions

    The exceptions that the source and the libraries under it raise, and the
    three errors that only the specification names; no path of the source
    raises one of the latter. *)

Inductive exn : Type :=
  | TypeError
  | ValueError
  | IndexError
  | AttributeError
  | StopIteration
  | ClickException (message : string)
  | DegenerateWeightError (category : option string)
  | InsufficientCombinationsError
  | NoVisibleLayersError.

Inductive result (A : Type) : Type :=
  | Return (a : A)
  | Raise (e : exn).
Arguments Return {A} a.
Arguments Raise {A} e.

#[global] Instance result_ret : MRet result := @Return.
#[global] Instance result_bind : MBind result := fun A B f m =>
  match m with
  | Return a => f a
  | Raise e => Raise e
  end.

(** [l[i]] on a Python sequence or numpy axis: out of range raises. *)
Definition getitem {A} (l : list A) (i : nat) : result A :=
  match l !! i with
  | Some x => Return x
  | None => Raise IndexError
  end.

(** ** float64 *)

Module Float.

Inductive float64 : Type :=
  | Finite (q : Q)
  | Infinite (negative : bool)
  | NaN.

Definition of_int (z : Z) : float64 := Finite (inject_Z z).

Definition negative (q : Q) : bool := negb (Qle_bool 0 q).

Definition add (x y : float64) : float64 :=
  match x, y with
  | NaN, _ | _, NaN => NaN
  | Finite a, Finite b => Finite (a + b)
  | Infinite s, Finite _ | Finite _, Infinite s => Infinite s
  | Infinite s, Infinite t => if Bool.eqb s t then Infinite s else NaN
  end.

Definition opp (x : float64) : float64 :=
  match x with
  | Finite a => Finite (- a)
  | Infinite s => Infinite (negb s)
  | NaN => NaN
  end.

Definition sub (x y : float64) : float64 := add x (opp y).

Definition abs (x : float64) : float64 :=
  match x with
  | Finite a => Finite (Qabs a)
  | Infinite _ => Infinite false
  | NaN => NaN
  end.

Definition div (x y : float64) : float64 :=
  match x, y with
  | NaN, _ | _, NaN => NaN
  | Finite a, Finite b =>
      if Qeq_bool b 0
      then (if Qeq_bool a 0 then NaN else Infinite (negative a))
      else Finite (a / b)
  | Infinite s, Finite b => Infinite (xorb s (negative b))
  | Finite _, Infinite _ => Finite 0
  | Infinite _, Infinite _ => NaN
  end.

(** [x < y]; every comparison with NaN is false. *)
Definition ltb (x y : float64) : bool :=
  match x, y with
  | NaN, _ | _, NaN => false
  | Finite a, Finite b => negb (Qle_bool b a)
  | Infinite s, Finite _ => s
  | Finite _, Infinite t => negb t
  | Infinite s, Infinite t => s && negb t
  end.

Definition isnan (x : float64) : bool :=
  match x with NaN => true | _ => false end.


(** [ndarray.sum()] *)
Definition sum (xs : list float64) : float64 := foldl add (Finite 0) xs.

(** [ndarray.cumsum()] *)
Fixpoint cumsum_from (acc : float64) (xs : list float64) : list float64 :=
  match xs with
  | [] => []
  | x :: xs' => let acc' := add acc x in acc' :: cumsum_from acc' xs'
  end.
Definition cumsum (xs : list float64) : list float64 :=
  match xs with
  | [] => []
  | x :: xs' => x :: cumsum_from x xs'
  end.

(** [ndarray.searchsorted(v, side='right')] on an ascending array: the
    first position whose element is strictly greater than [v]. *)
Fixpoint searchsorted_right (a : list float64) (v : float64) : nat :=
  match a with
  | [] => 0
  | x :: a' => if ltb v x then 0 else S (searchsorted_right a' v)
  end.

End Float.
Import Float.

(** ** Interfaces to the libraries and the platform *)

(** [ndarray.argsort()] on an array of [str]: a permutation of the positions
    that puts the keys in ascending order ([String.le] is the order of Python
    [str] values, position by position).  The default sort kind is not
    stable, so the order among equal keys is left to the instance. *)
Class ArgSort : Type := {
  argsort : list string → list nat;
  argsort_perm : ∀ keys, argsort keys ≡ₚ seq 0 (length keys);
  argsort_sorted : ∀ keys,
    Sorted String.le (omap (λ i, keys !! i) (argsort keys));
}.

(** [numpy.random.Generator]: a state from which [random()] draws a float in
    the half-open interval [0, 1). *)
Class BitGenerator : Type := {
  rng : Type;
  seed_rng : N → rng;
  random : rng → Q * rng;
  random_range : ∀ r, (0 <= (random r).1)%Q ∧ ((random r).1 < 1)%Q;
}.

(** Outcome of [Image.open(...).convert(...)]. *)
Inductive opened (I : Type) : Type :=
  | Opened (image : I)
  | FileNotFoundError
  | UnidentifiedImageError.
Arguments Opened {I} image.
Arguments FileNotFoundError {I}.
Arguments UnidentifiedImageError {I}.

(** Python's [int] on a [str] and the parts of PIL that the pipeline calls. *)
Class Platform : Type := {
  int : string → option Z;
  Image : Type;
  resolve : string → string → string;
  Image_open : string → opened Image;
  alpha_composite : Image → Image → result Image;
}.

(** ** The trait table *)

(** A row of the [traits] array: [(type, name, rarity_weight, image)].  The
    last column holds the image path while the table is being read and the
    decoded image afterwards. *)
Record trait (I : Type) : Type := Trait {
  trait_type : option string;
  trait_name : option string;
  rarity_weight : Z;
  trait_image : option I;
}.
Arguments Trait {I} _ _ _ _.
Arguments trait_type {I} _.
Arguments trait_name {I} _.
Arguments rarity_weight {I} _.
Arguments trait_image {I} _.

(** [s or None] on a [str]. *)
Definition or_None (s : string) : option string :=
  if decide (s = "") then None else Some s.

Section pipeline.
Context {sorting : ArgSort} {generator : BitGenerator} {platform : Platform}.

(** *** [__load_traits] *)

(** One step of the list comprehension: unpacking a record that does not
    have four fields, or a weight that [int] rejects, is a [ValueError],
    here [None]. *)
Definition load_row (row : list string) : option (trait string) :=
  match row with
  | [type; name; weight; image_path] =>
      w ← int weight;
      Some (Trait (or_None type) (or_None name) w (or_None image_path))
  | _ => None
  end.

Definition _load_trait_image (image_path : string) : result Image :=
  match Image_open image_path with
  | Opened image => Return image
  | FileNotFoundError =>
      Raise (ClickException ("File not found: " ++ image_path))
  | UnidentifiedImageError =>
      Raise (ClickException ("Invalid image file: " ++ image_path))
  end.

Definition load_image_column (file_path : string) (t : trait string)
  : result (trait Image) :=
  match trait_image t with
  | None =>
      Return (Trait (trait_type t) (trait_name t) (rarity_weight t) None)
  | Some image_path =>
      image ← _load_trait_image (resolve file_path image_path);
      Return (Trait (trait_type t) (trait_name t) (rarity_weight t)
                    (Some image))
  end.

(** [csv] is the sequence of records of the input file, header included.
    An empty list comprehension gives a one-dimensional array, on which the
    column selection [traits[:, 3]] is an [IndexError]. *)
Definition __load_traits (file_path : string) (csv : list (list string))
  : result (list (trait Image)) :=
  match csv with
  | [] => Raise StopIteration
  | _ :: records =>
      match mapM load_row records with
      | None => Raise (ClickException ("Invalid CSV file: " ++ file_path))
      | Some [] => Raise IndexError
      | Some traits => mapM (load_image_column file_path) traits
      end
  end.

(** *** [__get_normalized_rarity_weight_groups] *)

(** [argsort] of the object column of trait types.  Ordering [None]
    against anything is a [TypeError]; an array of at most one element is
    sorted without a comparison. *)
Definition argsort_types (types : list (option string)) : result (list nat) :=
  if decide (length types ≤ 1) then Return (seq 0 (length types))
  else match mapM id types with
       | Some keys => Return (argsort keys)
       | None => Raise TypeError
       end.

(** [np.unique(ar, return_index=True)[1]] for an array that is already
    ascending: the positions at which the value changes, position 0
    included. *)
Fixpoint value_changes (pos : nat) (prev : option string)
    (ar : list (option string)) : list nat :=
  match ar with
  | [] => []
  | x :: ar' =>
      if decide (x = prev) then value_changes (S pos) x ar'
      else pos :: value_changes (S pos) x ar'
  end.
Definition unique_index (ar : list (option string)) : list nat :=
  match ar with
  | [] => []
  | x :: ar' => 0 :: value_changes 1 x ar'
  end.

(** [np.split(ary, indices)]: the pieces [ary[0:i0]], [ary[i0:i1]], ...,
    [ary[in:]]; [start] is the position of the head of [ary] in the whole
    array. *)
Fixpoint split_from {A} (start : nat) (ary : list A) (indices : list nat)
  : list (list A) :=
  match indices with
  | [] => [ary]
  | i :: indices' =>
      take (i - start) ary :: split_from i (drop (i - start) ary) indices'
  end.
Definition np_split {A} (ary : list A) (indices : list nat) : list (list A) :=
  split_from 0 ary indices.

(** A weight matrix: rows [(index in the trait table, weight)].  numpy holds
    both columns as [float64]; the indexes are whole numbers, kept as [nat]. *)
Definition weight_matrix : Type := list (nat * float64).

(** [weights / weights.sum()]: a division by zero gives NaN or an infinity,
    not an exception. *)
Definition _normalize_indexed_rarity_weights (m : weight_matrix)
  : weight_matrix :=
  let weights := m.*2 in
  let total := Float.sum weights in
  zip (m.*1) ((λ w, Float.div w total) <$> weights).

(** The groups come in the ascending order of their types.  The only array
    without rows is the one-dimensional one of [__load_traits], on which the
    column selection [traits[:, 0]] is an [IndexError]. *)
Definition __get_normalized_rarity_weight_groups {I} (traits : list (trait I))
  : result (list weight_matrix) :=
  match traits with
  | [] => Raise IndexError
  | _ =>
      sorted_indexes ← argsort_types (trait_type <$> traits);
      sorted_traits ← mapM (getitem traits) sorted_indexes;
      let split_indexes := tail (unique_index (trait_type <$> sorted_traits)) in
      let rarity_weights := (λ t, Float.of_int (rarity_weight t)) <$> sorted_traits in
      let indexed_rarity_weights := zip sorted_indexes rarity_weights in
      let indexed_rarity_weight_groups :=
        np_split indexed_rarity_weights split_indexes in
      Return (_normalize_indexed_rarity_weights <$> indexed_rarity_weight_groups)
  end.

(** *** [Generator.choice(a, p=p)]

    numpy validates the probabilities (no NaN, none negative, sum within
    [sqrt(eps)] of one) and then inverts the cumulative distribution at one
    uniform draw. *)
Definition atol : float64 := Finite (1 # 67108864).

Definition choice (a : list nat) (p : list float64) (r : rng)
  : result (nat * rng) :=
  if decide (length a = 0) then Raise ValueError
  else if decide (length p ≠ length a) then Raise ValueError
  else
    let p_sum := Float.sum p in
    if Float.isnan p_sum then Raise ValueError
    else if existsb (λ x, Float.ltb x (Finite 0)) p then Raise ValueError
    else if Float.ltb atol (Float.abs (Float.sub p_sum (Finite 1)))
    then Raise ValueError
    else
      let cdf := Float.cumsum p in
      let cdf := (λ c, Float.div c (List.last cdf NaN)) <$> cdf in
      let '(u, r') := random r in
      let idx := Float.searchsorted_right cdf (Finite u) in
      x ← getitem a idx;
      Return (x, r').

(** *** [__get_random_traits] *)

(** The list comprehension: one draw per group, from left to right. *)
Fixpoint choose_each (groups : list weight_matrix) (r : rng)
  : result (list nat * rng) :=
  match groups with
  | [] => Return ([], r)
  | g :: groups' =>
      '(i, r1) ← choice (g.*1) (g.*2) r;
      '(rest, r2) ← choose_each groups' r1;
      Return (i :: rest, r2)
  end.

(** [np.sort] of the drawn indexes. *)
Definition np_sort (a : list nat) : list nat := merge_sort (≤) a.

Definition random_trait_indexes (groups : list weight_matrix) (r : rng)
  : result (list nat * rng) :=
  '(picked, r') ← choose_each groups r;
  Return (np_sort picked, r').

Definition __get_random_traits {I} (traits : list (trait I))
    (rarity_weight_groups : list weight_matrix) (r : rng)
  : result (list (trait I) * rng) :=
  '(indexes, r') ← random_trait_indexes rarity_weight_groups r;
  random_traits ← mapM (getitem traits) indexes;
  Return (random_traits, r').

(** *** [__generate_token_data] *)

(** A row of [token_data] once the rarity weight column has been deleted:
    [(type, name, image)]. *)
Definition token_trait (I : Type) : Type :=
  (option string * option string * option I)%type.

Definition slot_type {I} (t : token_trait I) : option string := t.1.1.
Definition slot_name {I} (t : token_trait I) : option string := t.1.2.
Definition slot_image {I} (t : token_trait I) : option I := t.2.

(** [np.delete(arr=token_data, obj=2, axis=2)] on one row. *)
Definition delete_weight {I} (t : trait I) : token_trait I :=
  (trait_type t, trait_name t, trait_image t).

(** The [while bar.pos < amount] loop.  [token_data] is the part of the
    preallocated array written so far, so that [bar.pos] is its length;
    [generated_traits] is the set of name tuples already accepted.  The loop
    has no bound in the source: [fuel] bounds the number of iterations
    evaluated, and [None] says that the loop is still running after them. *)
Fixpoint sampling_loop {I} (fuel : nat) (traits : list (trait I))
    (rarity_weight_groups : list weight_matrix) (amount : nat)
    (generated_traits : gset (list (option string)))
    (token_data : list (list (trait I))) (r : rng)
  : option (result (list (list (trait I)))) :=
  if decide (length token_data < amount) then
    match fuel with
    | 0 => None
    | S fuel' =>
        match __get_random_traits traits rarity_weight_groups r with
        | Raise e => Some (Raise e)
        | Return (random_traits, r') =>
            let random_trait_names := trait_name <$> random_traits in
            if decide (random_trait_names ∈ generated_traits)
            then sampling_loop fuel' traits rarity_weight_groups amount
                   generated_traits token_data r'
            else sampling_loop fuel' traits rarity_weight_groups amount
                   ({[random_trait_names]} ∪ generated_traits)
                   (token_data ++ [random_traits]) r'
        end
    end
  else Some (Return token_data).

Definition __generate_token_data {I} (fuel : nat) (traits : list (trait I))
    (rarity_weight_groups : list weight_matrix) (amount : nat) (r : rng)
  : option (result (list (list (token_trait I)))) :=
  match sampling_loop fuel traits rarity_weight_groups amount ∅ [] r with
  | None => None
  | Some (Raise e) => Some (Raise e)
  | Some (Return token_data) =>
      Some (Return (map (map delete_weight) token_data))
  end.

(** *** Statistics *)

(** [np.unique(ar, return_inverse=True, return_counts=True)]: the distinct
    values in ascending order, for each element of [ar] its position among
    them, and how often each of them occurs. *)
Definition np_unique {A} `{EqDecision A} (le : relation A) `{!RelDecision le}
    (ar : list A) : list A * list nat * list nat :=
  let unique := remove_dups (merge_sort le ar) in
  (unique,
   (λ x, default 0 (fst <$> list_find (x =.) unique)) <$> ar,
   (λ u, length (filter (u =.) ar)) <$> unique).

(** Order of the rows of a two-column array of [str] ([axis=0]): by first
    column, then by second. *)
Definition row_le (a b : string * string) : Prop :=
  if decide (a.1 = b.1) then String.le a.2 b.2 else String.le a.1 b.1.

#[global] Instance row_le_dec : RelDecision row_le.
Proof. intros a b. unfold row_le. destruct (decide (a.1 = b.1)); apply _. Defined.

(** [astype(dtype='U')] on an object: [str(x)], so that [None] becomes the
    string of its name. *)
Definition astype_U (x : option string) : string := default "None" x.

(** [np.split(ary, sections)] into [sections] equal parts. *)
Fixpoint sections_of {A} (size count : nat) (ary : list A) : list (list A) :=
  match count with
  | 0 => []
  | S count' => take size ary :: sections_of size count' (drop size ary)
  end.
Definition np_split_equal {A} (ary : list A) (sections : nat)
  : result (list (list A)) :=
  if decide (sections = 0) then Raise ValueError
  else if decide (length ary `mod` sections ≠ 0)%nat then Raise ValueError
  else Return (sections_of (length ary `div` sections) sections ary).

(** Returns the rows written to [trait_frequencies.csv] under its header and
    the frequency of each slot of each token.  [token_data] is a rectangular
    array: every token has the same number of slots. *)
Definition __generate_trait_frequencies {I}
    (token_data : list (list (token_trait I)))
  : result (list (string * string * nat) * list (list nat)) :=
  match token_data with
  | [] => Raise ValueError
  | _ =>
      let filtered_traits :=
        concat (map (λ t, (slot_type t, slot_name t)) <$> token_data) in
      let '(unique_traits, unique_traits_inverse, unique_trait_frequencies) :=
        np_unique row_le
          ((λ t, (astype_U t.1, astype_U t.2)) <$> filtered_traits) in
      let trait_statistics := zip unique_traits unique_trait_frequencies in
      frequencies ← mapM (getitem unique_trait_frequencies) unique_traits_inverse;
      trait_frequencies ← np_split_equal frequencies (length token_data);
      Return (trait_statistics, trait_frequencies)
  end.

(** Truth value of an object of the name column. *)
Definition truthy (x : option string) : bool :=
  match x with
  | Some s => bool_decide (s ≠ "")
  | None => false
  end.

(** [np.count_nonzero(token_data[:, :, 1], axis=1)] on one token. *)
Definition count_nonzero {I} (token : list (token_trait I)) : nat :=
  length (filter (λ t, truthy (slot_name t)) token).

(** Returns the rows written to [trait_count_frequencies.csv] and the
    frequency of the trait count of each token. *)
Definition __generate_trait_count_frequencies {I}
    (token_data : list (list (token_trait I)))
  : result (list (nat * nat) * list nat) :=
  let traits_counts := count_nonzero <$> token_data in
  let '(unique_trait_counts, unique_trait_counts_inverse,
        unique_trait_count_frequencies) := np_unique (≤) traits_counts in
  let trait_count_statistics :=
    zip unique_trait_counts unique_trait_count_frequencies in
  trait_count_frequencies ←
    mapM (getitem unique_trait_count_frequencies) unique_trait_counts_inverse;
  Return (trait_count_statistics, trait_count_frequencies).

(** [f'{token_name} #{i+1}'] *)
Definition token_label (token_name : string) (i : nat) : string :=
  token_name +:+ " #" +:+ pretty (i + 1)%nat.

(** [np.sum(len(frequencies)/x)] for one row [x] of [frequencies]. *)
Definition rarity_score (amount : nat) (x : list nat) : float64 :=
  Float.sum ((λ f, Float.div (Float.of_int (Z.of_nat amount))
                             (Float.of_int (Z.of_nat f))) <$> x).

(** Returns the rows written to [rarity_scores.csv]; their second column is
    the array of rarity scores that the source returns. *)
Definition __generate_rarities (token_name : string)
    (trait_frequencies : list (list nat)) (trait_count_frequencies : list nat)
  : result (list (string * float64)) :=
  if decide (length trait_frequencies ≠ length trait_count_frequencies)
  then Raise ValueError
  else
    let frequencies :=
      zip_with (λ row c, row ++ [c]) trait_frequencies trait_count_frequencies in
    let rarity_scores := rarity_score (length frequencies) <$> frequencies in
    let token_names := token_label token_name <$> seq 0 (length frequencies) in
    Return (zip token_names rarity_scores).

Record statistics : Type := Statistics {
  trait_frequencies_csv : list (string * string * nat);
  trait_count_frequencies_csv : list (nat * nat);
  rarity_scores_csv : list (string * float64);
}.

Definition __generate_statistics {I} (token_name : string)
    (token_data : list (list (token_trait I))) : result statistics :=
  '(trait_statistics, trait_frequencies) ←
    __generate_trait_frequencies token_data;
  '(trait_count_statistics, trait_count_frequencies) ←
    __generate_trait_count_frequencies token_data;
  rarity_score_statistics ←
    __generate_rarities token_name trait_frequencies trait_count_frequencies;
  Return (Statistics trait_statistics trait_count_statistics
                     rarity_score_statistics).

(** *** [__generate_metadata] *)

(** A Python [dict] with its insertion order: assigning to a key that is
    present keeps the key's position. *)
Fixpoint dict_setitem {K V} `{EqDecision K} (d : list (K * V)) (k : K) (v : V)
  : list (K * V) :=
  match d with
  | [] => [(k, v)]
  | (k', v') :: d' =>
      if decide (k = k') then (k, v) :: d' else (k', v') :: dict_setitem d' k v
  end.

(** [{**d, **dict(items)}] *)
Definition dict_update {K V} `{EqDecision K} (d items : list (K * V))
  : list (K * V) :=
  foldl (λ d kv, dict_setitem d kv.1 kv.2) d items.

(** [d.get(k, restval)] *)
Fixpoint dict_get {K V} `{EqDecision K} (d : list (K * V)) (k : K) (restval : V)
  : V :=
  match d with
  | [] => restval
  | (k', v) :: d' => if decide (k = k') then v else dict_get d' k restval
  end.

(** How [csv.writer] writes a cell: [None] as the empty string. *)
Definition csv_cell (x : option string) : string := default "" x.

(** [DictWriter._dict_to_list]: a key outside [fieldnames] is a
    [ValueError]. *)
Definition dict_to_list (fieldnames : list (option string))
    (rowdict : list (option string * option string)) : result (list string) :=
  if decide (Forall (λ kv, kv.1 ∈ fieldnames) rowdict)
  then Return ((λ k, csv_cell (dict_get rowdict k (Some ""))) <$> fieldnames)
  else Raise ValueError.

(** Returns the header and the rows of [metadata.csv]. *)
Definition __generate_metadata {I} (token_name : string)
    (token_data : list (list (token_trait I)))
  : result (list string * list (list string)) :=
  let metadata :=
    imap (λ i token,
            dict_update [(Some "Name", Some (token_label token_name i))]
              (dict_update [] ((λ t, (slot_type t, slot_name t)) <$> token)))
         token_data in
  first ← getitem metadata 0;
  let fieldnames := first.*1 in
  rows ← mapM (dict_to_list fieldnames) metadata;
  Return (csv_cell <$> fieldnames, rows).

(** *** [__generate_images] *)

(** An absent image is falsy, an image is truthy; with both absent the
    function falls off its end and returns [None]. *)
Definition __combine_images (first second : option Image)
  : result (option Image) :=
  match first, second with
  | Some im1, Some im2 => im ← alpha_composite im1 im2; Return (Some im)
  | Some im1, None => Return (Some im1)
  | None, Some im2 => Return (Some im2)
  | None, None => Return None
  end.

(** [reduce(__combine_images, trait_images)], without an initial value. *)
Definition reduce_images (trait_images : list (option Image))
  : result (option Image) :=
  match trait_images with
  | [] => Raise TypeError
  | first :: rest =>
      foldl (λ acc second, a ← acc; __combine_images a second)
            (Return first) rest
  end.

(** [combined_image.save(...)]: [None] has no attribute [save].  Returns the
    image files written, by name. *)
Fixpoint save_images (token_name : string) (pos : nat)
    (token_data_images : list (list (option Image)))
  : result (list (string * Image)) :=
  match token_data_images with
  | [] => Return []
  | trait_images :: rest =>
      combined_image ← reduce_images trait_images;
      match combined_image with
      | None => Raise AttributeError
      | Some image =>
          saved ← save_images token_name (S pos) rest;
          Return ((token_label token_name pos +:+ ".png", image) :: saved)
      end
  end.

Definition __generate_images (token_name : string)
    (token_data : list (list (token_trait Image)))
  : result (list (string * Image)) :=
  save_images token_name 0 (map slot_image <$> token_data).

(** *** [generate_content] *)

(** [np.random.default_rng(seed=seed)]: without a seed the state comes from
    the entropy of the operating system. *)
Definition default_rng (os_entropy : N) (seed : option N) : rng :=
  seed_rng (default os_entropy seed).

(** What a run leaves behind. *)
Record content : Type := Content {
  content_dir : string;
  content_token_data : list (list (token_trait Image));
  content_metadata : list string * list (list string);
  content_statistics : statistics;
  content_images : list (string * Image);
}.

(** The part of [generate_content] that ends with the call of
    [__generate_token_data]. *)
Definition generate_token_data_of (fuel : nat) (os_entropy : N)
    (in_file : string) (csv : list (list string)) (amount : nat)
    (seed : option N)
  : option (result (list (list (token_trait Image)))) :=
  let r := default_rng os_entropy seed in
  match __load_traits in_file csv with
  | Raise e => Some (Raise e)
  | Return traits =>
      match __get_normalized_rarity_weight_groups traits with
      | Raise e => Some (Raise e)
      | Return rarity_weight_groups =>
          __generate_token_data fuel traits rarity_weight_groups amount r
      end
  end.

(** [os_entropy] and [now] are what the run reads from its environment: the
    entropy behind an unseeded generator and [datetime.datetime.now()]. *)
Definition generate_content (fuel : nat) (os_entropy : N) (now : string)
    (token_name in_file : string) (csv : list (list string))
    (out_dir : string) (amount : nat) (seed : option N)
  : option (result content) :=
  match generate_token_data_of fuel os_entropy in_file csv amount seed with
  | None => None
  | Some (Raise e) => Some (Raise e)
  | Some (Return token_data) =>
      let out_dir := out_dir +:+ "/" +:+ token_name +:+ " " +:+ now in
      Some (
        metadata ← __generate_metadata token_name token_data;
        stats ← __generate_statistics token_name token_data;
        images ← __generate_images token_name token_data;
        Return (Content out_dir token_data metadata stats images))
  end.

End pipeline.

(** ** [cnifty/ipfs/add_to_ipfs.py] *)

(** What [add_to_ipfs] can raise: an exception of the kinds above, or one of
    those of [subprocess.run(..., check=True)] and [bytes.decode()]. *)
Inductive ipfs_exn : Type :=
  | Python (e : exn)
  | CalledProcessError (returncode : Z)
  | OSError
  | UnicodeDecodeError.

(** The environment of [add_to_ipfs]: [pathlib]'s [joinpath], the decoded
    standard output of [/usr/local/bin/ipfs add image_path] (or what running
    it raises), and [str.split()]. *)
Class Ipfs : Type := {
  joinpath : string → string → string;
  ipfs_add : string → ipfs_exn + string;
  str_split : string → list string;
}.

(** The line feed. *)
Definition LF : string := String (Ascii.ascii_of_nat 10) "".

Section add_to_ipfs.
Context {ipfs : Ipfs}.

(** One step of the list comprehension: unpacking a record that does not
    have nine fields is a [ValueError], here [None]. *)
Definition metadata_name (record : list string) : option string :=
  match record with
  | [name; _; _; _; _; _; _; _; _] => Some name
  | _ => None
  end.

(** The loop over the names; returns the lines written after the header. *)
Fixpoint ipfs_lines (final_dir : string) (names : list string)
  : ipfs_exn + list string :=
  match names with
  | [] => inr []
  | name :: names' =>
      let image_path := joinpath final_dir (name +:+ ".png") in
      match ipfs_add image_path with
      | inl e => inl e
      | inr output =>
          match str_split output !! 1 with
          | None => inl (Python IndexError)
          | Some ipfs_hash =>
              match ipfs_lines final_dir names' with
              | inl e => inl e
              | inr lines =>
                  inr ((name +:+ "," +:+ ipfs_hash +:+ LF) :: lines)
              end
          end
      end
  end.

(** [csv] is the sequence of records of [metadata.csv], header included;
    returns what is written to [ipfs.csv]. *)
Definition add_to_ipfs (final_dir : string) (csv : list (list string))
  : ipfs_exn + list string :=
  let metadata_file_path := joinpath final_dir "metadata.csv" in
  match csv with
  | [] => inl (Python StopIteration)
  | _ :: records =>
      match mapM metadata_name records with
      | None =>
          inl (Python (ClickException
                         ("Invalid CSV file: " ++ metadata_file_path)))
      | Some names =>
          match ipfs_lines final_dir names with
          | inl e => inl e
          | inr lines => inr (("Name,IPFS Hash" +:+ LF) :: lines)
          end
      end
  end.

End add_to_ipfs.

(** ** Notions in which the properties are stated *)

(** Equal keys are next to each other. *)
Fixpoint grouped {K} (ks : list K) : Prop :=
  match ks with
  | [] => True
  | k :: ks' => (head ks' = Some k ∨ k ∉ ks') ∧ grouped ks'
  end.

(** The distinct values of a list in the order of their first occurrence. *)
Fixpoint first_occurrences {K} `{EqDecision K} (ks : list K) : list K :=
  match ks with
  | [] => []
  | k :: ks' => k :: filter (λ k', k' ≠ k) (first_occurrences ks')
  end.

(** Some occurrence of [a] comes before some occurrence of [b]. *)
Definition occurs_before {K} (ks : list K) (a b : K) : Prop :=
  ∃ i j, i < j ∧ ks !! i = Some a ∧ ks !! j = Some b.

(** The sum of a list of integers. *)
Definition Zsum (zs : list Z) : Z := foldr Z.add 0%Z zs.

(** The total rarity weight of the rows of a trait type. *)
Definition category_total {I} (traits : list (trait I)) (c : option string) : Z :=
  Zsum (rarity_weight <$> filter (λ t, trait_type t = c) traits).


(** The name tuples of the tokens written so far. *)
Definition trait_names {I} (token_data : list (list (trait I)))
  : list (list (option string)) :=
  (λ token : list (trait I), trait_name <$> token) <$> token_data.

(** *** The rarity score in the words of the specification

    The sum, over the slots of the token that are not absent, of the amount
    divided by the frequency of the slot's (type, name) pair, plus the amount
    divided by the frequency of the token's count of traits that are not
    absent. *)

Definition described_trait_frequency {I}
    (token_data : list (list (token_trait I))) (t : token_trait I) : nat :=
  length (filter (λ t', slot_type t' = slot_type t ∧ slot_name t' = slot_name t)
                 (concat token_data)).

Definition described_trait_count {I} (token : list (token_trait I)) : nat :=
  length (filter (λ t, slot_name t ≠ None) token).

Definition described_count_frequency {I}
    (token_data : list (list (token_trait I)))
    (token : list (token_trait I)) : nat :=
  length (filter (λ token', described_trait_count token'
                            = described_trait_count token) token_data).

Definition described_rarity_score {I}
    (token_data : list (list (token_trait I)))
    (token : list (token_trait I)) : Q :=
  let amount := inject_Z (Z.of_nat (length token_data)) in
  (foldr Qplus 0
     ((λ t, amount / inject_Z (Z.of_nat (described_trait_frequency token_data t)))
        <$> filter (λ t, slot_name t ≠ None) token)
   + amount
     / inject_Z (Z.of_nat (described_count_frequency token_data token)))%Q.

(** *** Further notions *)


(** The product of a list of numbers. *)
Definition Nprod (ns : list nat) : nat := foldr Nat.mul 1 ns.



(** The dictionary that [__generate_metadata] builds for the token of
    position [i]. *)
Definition rowdict {I} (token_name : string) (i : nat)
    (token : list (token_trait I)) : list (option string * option string) :=
  dict_update [(Some "Name", Some (token_label token_name i))]
    (dict_update [] ((λ t, (slot_type t, slot_name t)) <$> token)).

(** The type and the name of a slot as [astype('U')] writes them. *)
Definition slot_strings {I} (t : token_trait I) : string * string :=
  (astype_U (slot_type t), astype_U (slot_name t)).

(** The number of slots, over all tokens, whose type and name are written as
    those of the slot [t]. *)
Definition counted_trait_frequency {I}
    (token_data : list (list (token_trait I))) (t : token_trait I) : nat :=
  length (filter (λ t', slot_strings t' = slot_strings t) (concat token_data)).

(** The number of tokens that have as many truthy names as [token]. *)
Definition counted_count_frequency {I}
    (token_data : list (list (token_trait I)))
    (token : list (token_trait I)) : nat :=
  length (filter (λ token', count_nonzero token' = count_nonzero token)
                 token_data).

(** The rarity score as the source computes it: every slot of the token
    contributes the amount divided by the frequency of its written type and
    name, an absent slot too, and the count of truthy names contributes the
    amount divided by its frequency. *)
Definition counted_rarity_score {I}
    (token_data : list (list (token_trait I)))
    (token : list (token_trait I)) : Q :=
  let amount := inject_Z (Z.of_nat (length token_data)) in
  (foldr Qplus 0
     ((λ t, amount
            / inject_Z (Z.of_nat (counted_trait_frequency token_data t)))
        <$> token)
   + amount / inject_Z (Z.of_nat (counted_count_frequency token_data token)))%Q.

(** [alpha_composite] over the layers that are present. *)
Definition composite {platform : Platform} (first : Image)
    (rest : list Image) : result Image :=
  foldl (λ acc second, a ← acc; alpha_composite a second) (Return first) rest.

(** A row of the loaded table against its record in the file: four fields,
    an empty field read as [None], the weight read by [int], and the image
    opened at the path resolved against the directory of the file. *)
Definition loaded_from {platform : Platform} (file_path : string)
    (record : list string) (t : trait Image) : Prop :=
  ∃ type name weight image_path,
    record = [type; name; weight; image_path]
    ∧ trait_type t = or_None type
    ∧ trait_name t = or_None name
    ∧ int weight = Some (rarity_weight t)
    ∧ match trait_image t with
      | None => image_path = ""
      | Some image =>
          image_path ≠ ""
          ∧ Image_open (resolve file_path image_path) = Opened image
      end.


(** ** Runs of equal keys

    [np.split] at the positions where the sorted type column changes cuts the
    array into its runs of equal keys.  [group_adjacent] builds these runs
    directly; it is the form in which the groups are reasoned about. *)

Fixpoint group_adjacent {X K} `{EqDecision K} (key : X → K) (xs : list X)
  : list (list X) :=
  match xs with
  | [] => []
  | x :: xs' =>
      match group_adjacent key xs' with
      | (y :: g) :: gs =>
          if decide (key x = key y) then (x :: y :: g) :: gs
          else [x] :: (y :: g) :: gs
      | _ => [[x]]
      end
  end.

(** A row with its position: its key is the trait type; [entry_weight] is its
    row in the weight matrix before normalisation. *)
Definition entry_key {I} (e : nat * trait I) : option string := trait_type e.2.
Definition entry_weight {I} (e : nat * trait I) : nat * float64 :=
  (e.1, Float.of_int (rarity_weight e.2)).

(** The rows of a table with their positions. *)
Definition entries {I} (traits : list (trait I)) : list (nat * trait I) :=
  zip (seq 0 (length traits)) traits.


(** ** Instances on which runs are evaluated *)

Module Concrete.


(** Insertion sort of the positions, the way numpy's sort proceeds on short
    arrays: equal keys keep their order. *)
Fixpoint insert_key (x : string * nat) (sorted : list (string * nat))
  : list (string * nat) :=
  match sorted with
  | [] => [x]
  | y :: sorted' =>
      if decide (String.le x.1 y.1) then x :: y :: sorted'
      else y :: insert_key x sorted'
  end.

Definition insertion_sort (l : list (string * nat)) : list (string * nat) :=
  foldr insert_key [] l.

Definition insertion_argsort (keys : list string) : list nat :=
  (insertion_sort (zip keys (seq 0 (length keys)))).*2.

(** A linear congruential generator; a draw is the state scaled to the unit
    interval. *)
Definition lcg_modulus : N := 65537.
Definition lcg_next (s : N) : N := ((75 * s + 74) mod lcg_modulus)%N.
Definition lcg_random (s : N) : Q * N :=
  ((Z.of_N (s mod lcg_modulus) # 65537)%Q, lcg_next s).

(** Decimal integers. *)
Definition decimal_int (s : string) : option Z :=
  if decide (s = "") then None
  else Z.of_int <$> DecimalString.NilZero.int_of_string s.

(** An image as the list of the layers it was composed of, bottom first. *)
Definition layers : Type := list string.

(** The output of [ipfs add]: the word [added], a hash, the file name. *)
Definition ipfs_output (image_path : string) : string :=
  "added Qm" +:+ pretty (String.length image_path) +:+ " " +:+ image_path.

End Concrete.

(** ** Tables and runs on which the properties are evaluated *)

Module Example.
Import Concrete.

(** Two bodies around a hat: the rows of the type [Body] are not next to each
    other. *)
Definition body_hat : list (trait layers) :=
  [Trait (Some "Body") (Some "Red") 1 (Some ["red.png"]);
   Trait (Some "Hat") (Some "Cap") 1 (Some ["cap.png"]);
   Trait (Some "Body") (Some "Blue") 1 (Some ["blue.png"])].

Definition body_hat_groups : list weight_matrix :=
  [[(0, Finite (1 # 2)); (2, Finite (1 # 2))]; [(1, Finite 1)]].

Definition body_hat_csv : list (list string) :=
  [["Type"; "Name"; "Rarity Weight"; "Image Path"];
   ["Body"; "Red"; "1"; "red.png"];
   ["Hat"; "Cap"; "1"; "cap.png"];
   ["Body"; "Blue"; "1"; "blue.png"]].

(** A trait of weight zero next to one of weight one. *)
Definition with_zero : list (trait layers) :=
  [Trait (Some "Body") (Some "Red") 1 (Some ["red.png"]);
   Trait (Some "Body") (Some "Blue") 0 (Some ["blue.png"]);
   Trait (Some "Hat") (Some "Cap") 1 (Some ["cap.png"])].

Definition with_zero_groups : list weight_matrix :=
  [[(0, Finite 1); (1, Finite 0)]; [(2, Finite 1)]].


Definition zero_total_csv : list (list string) :=
  [["Type"; "Name"; "Rarity Weight"; "Image Path"];
   ["Body"; "Red"; "0"; ""]].

(** A hat that may be absent; with seed 0 the third token has no hat. *)
Definition hat_absent_csv : list (list string) :=
  [["Type"; "Name"; "Rarity Weight"; "Image Path"];
   ["Body"; "Red"; "1"; "red.png"];
   ["Hat"; "Cap"; "1"; "cap.png"];
   ["Body"; "Blue"; "1"; "blue.png"];
   ["Hat"; ""; "1"; ""]].

Definition hat_absent_tokens : list (list (token_trait layers)) :=
  [[(Some "Body", Some "Red", Some ["red.png"]);
    (Some "Hat", Some "Cap", Some ["cap.png"])];
   [(Some "Hat", Some "Cap", Some ["cap.png"]);
    (Some "Body", Some "Blue", Some ["blue.png"])];
   [(Some "Body", Some "Red", Some ["red.png"]);
    (Some "Hat", None, None)]].

(** A token without any image. *)
Definition no_image_csv : list (list string) :=
  [["Type"; "Name"; "Rarity Weight"; "Image Path"];
   ["Hat"; ""; "1"; ""]].

Definition no_image_token : list (token_trait layers) :=
  [(Some "Hat", None, None)].

(** One trait type with one trait: one possible combination. *)
Definition one_trait : list (trait layers) :=
  [Trait (Some "Background") (Some "Green") 1 (Some ["green.png"])].

Definition one_trait_groups : list weight_matrix := [[(0, Finite (1 / 1))]].

Definition one_trait_csv : list (list string) :=
  [["Type"; "Name"; "Rarity Weight"; "Image Path"];
   ["Background"; "Green"; "1"; "green.png"]].


(** A trait type that is called like the first column of the metadata. *)
Definition name_type_csv : list (list string) :=
  [["Type"; "Name"; "Rarity Weight"; "Image Path"];
   ["Name"; "Alice"; "1"; "alice.png"];
   ["Name"; "Bob"; "1"; "bob.png"];
   ["Hat"; "Cap"; "1"; "cap.png"]].

Definition name_type : list (trait layers) :=
  [Trait (Some "Name") (Some "Alice") 1 (Some ["alice.png"]);
   Trait (Some "Name") (Some "Bob") 1 (Some ["bob.png"]);
   Trait (Some "Hat") (Some "Cap") 1 (Some ["cap.png"])].

Definition body_hat_tokens : list (list (token_trait layers)) :=
  [[(Some "Body", Some "Red", Some ["red.png"]);
    (Some "Hat", Some "Cap", Some ["cap.png"])];
   [(Some "Hat", Some "Cap", Some ["cap.png"]);
    (Some "Body", Some "Blue", Some ["blue.png"])]].

End Example.

(** * Properties *)

(** ** The instances *)

Module Instances.
Import Concrete.

Lemma insert_key_perm x l : insert_key x l ≡ₚ x :: l.
Proof.
  induction l as [|y l IH]; simpl; [done|].
  case_decide; [done|]. rewrite IH. apply Permutation_swap.
Qed.

Lemma insertion_sort_perm l : insertion_sort l ≡ₚ l.
Proof.
  induction l as [|x l IH]; simpl; [done|].
  rewrite insert_key_perm. by rewrite IH.
Qed.

Lemma insert_key_sorted x l :
  Sorted (λ a b, String.le a.1 b.1) l →
  Sorted (λ a b, String.le a.1 b.1) (insert_key x l).
Proof.
  induction 1 as [|y l Hs IH Hhd]; simpl.
  - by repeat constructor.
  - case_decide as Hle.
    + constructor; [by constructor|]. by constructor.
    + constructor; [done|].
      destruct Hhd as [|z l Hz]; simpl.
      * constructor. by destruct (total String.le x.1 y.1).
      * case_decide; constructor; [|done].
        by destruct (total String.le x.1 y.1).
Qed.

Lemma insertion_sort_sorted l :
  Sorted (λ a b, String.le a.1 b.1) (insertion_sort l).
Proof.
  induction l as [|x l IH]; simpl; [constructor|].
  by apply insert_key_sorted.
Qed.

Lemma zip_seq_lookup (keys : list string) k i :
  (k, i) ∈ zip keys (seq 0 (length keys)) → keys !! i = Some k.
Proof.
  intros (j & Hj)%list_elem_of_lookup_1.
  apply lookup_zip_with_Some in Hj as (k' & i' & [= -> ->] & Hk & Hi).
  apply lookup_seq in Hi as [-> _]. done.
Qed.

Lemma omap_lookup_positions (keys : list string) (l : list (string * nat)) :
  Forall (λ p, keys !! p.2 = Some p.1) l →
  omap (λ i, keys !! i) l.*2 = l.*1.
Proof.
  induction 1 as [|[k i] l Hki _ IH]; simpl in *; [done|].
  rewrite Hki. f_equal. exact IH.
Qed.

Lemma insertion_argsort_keys (keys : list string) :
  omap (λ i, keys !! i) (insertion_argsort keys)
  = (insertion_sort (zip keys (seq 0 (length keys)))).*1.
Proof.
  apply omap_lookup_positions.
  rewrite insertion_sort_perm. apply Forall_forall.
  intros [k i] Hin. by apply zip_seq_lookup.
Qed.

#[export] Program Instance insertion : ArgSort := {|
  argsort := insertion_argsort;
|}.
Next Obligation.
  intros keys. unfold insertion_argsort.
  rewrite insertion_sort_perm. by rewrite snd_zip by (by rewrite length_seq).
Qed.
Next Obligation.
  intros keys. rewrite insertion_argsort_keys.
  eapply Sorted_fmap; [|apply insertion_sort_sorted].
  by intros a b.
Qed.

Lemma lcg_random_range s :
  (0 <= (lcg_random s).1)%Q ∧ ((lcg_random s).1 < 1)%Q.
Proof.
  unfold lcg_random, lcg_modulus, Qle, Qlt; cbn [fst Qnum Qden].
  assert (s `mod` 65537 < 65537)%N as Hlt by (by apply N.mod_lt).
  revert Hlt. generalize (s `mod` 65537)%N. intros n Hlt. lia.
Qed.

#[export] Instance lcg : BitGenerator := {|
  rng := N;
  seed_rng := λ seed, seed;
  random := lcg_random;
  random_range := lcg_random_range;
|}.

#[export] Instance layered : Platform := {|
  int := decimal_int;
  Image := layers;
  resolve := λ file_path image_path, image_path;
  Image_open := λ image_path, Opened [image_path];
  alpha_composite := λ im1 im2, Return (im1 ++ im2);
|}.

#[export] Instance local_ipfs : Ipfs := {|
  joinpath := λ dir name, dir +:+ "/" +:+ name;
  ipfs_add := λ image_path, inr (ipfs_output image_path);
  str_split := String.words;
|}.

End Instances.

(** ** The runs of equal keys are the groups *)

Lemma filter_none {A} (P : A → Prop) `{!∀ x, Decision (P x)} (l : list A) :
  Forall (λ x, ¬ P x) l → filter P l = [].
Proof.
  induction 1 as [|x l Hx _ IH]; [done|]. by rewrite filter_cons_False.
Qed.

Lemma filter_all {A} (P : A → Prop) `{!∀ x, Decision (P x)} (l : list A) :
  Forall P l → filter P l = l.
Proof.
  induction 1 as [|x l Hx _ IH]; [done|]. by rewrite filter_cons_True, IH.
Qed.

Section runs.
Context {X K : Type} `{EqDecision K} (key : X → K).

Lemma group_adjacent_unfold x xs :
  group_adjacent key (x :: xs)
  = match group_adjacent key xs with
    | (y :: g) :: gs =>
        if decide (key x = key y) then (x :: y :: g) :: gs
        else [x] :: (y :: g) :: gs
    | _ => [[x]]
    end.
Proof. done. Qed.

Lemma group_adjacent_cons x xs :
  ∃ g gs, group_adjacent key (x :: xs) = (x :: g) :: gs.
Proof.
  simpl. destruct (group_adjacent key xs) as [|[|y g] gs]; eauto.
  case_decide; eauto.
Qed.

Lemma group_adjacent_nonempty xs : Forall (λ g, g ≠ []) (group_adjacent key xs).
Proof.
  induction xs as [|x xs IH]; simpl; [constructor|].
  destruct (group_adjacent key xs) as [|[|y g] gs]; simpl in *.
  - by repeat constructor.
  - by repeat constructor.
  - case_decide.
    + apply Forall_cons in IH as [_ IH]. by constructor.
    + by constructor.
Qed.

Lemma group_adjacent_concat xs : concat (group_adjacent key xs) = xs.
Proof.
  induction xs as [|x xs IH]; simpl; [done|].
  pose proof (group_adjacent_nonempty xs) as Hne.
  destruct (group_adjacent key xs) as [|[|y g] gs]; simpl in *.
  - by rewrite <-IH.
  - by apply Forall_cons in Hne as [? _].
  - case_decide; simpl; by rewrite <-IH.
Qed.

Lemma group_adjacent_same_key xs :
  Forall (λ g, ∀ a b, a ∈ g → b ∈ g → key a = key b) (group_adjacent key xs).
Proof.
  induction xs as [|x xs IH]; simpl; [constructor|].
  destruct (group_adjacent key xs) as [|[|y g] gs]; simpl in *.
  - repeat constructor. by intros a b ->%list_elem_of_singleton ->%list_elem_of_singleton.
  - repeat constructor. by intros a b ->%list_elem_of_singleton ->%list_elem_of_singleton.
  - apply Forall_cons in IH as [Hg IH]. case_decide as Hxy.
    + constructor; [|done].
      assert (∀ a, a ∈ x :: y :: g → key a = key y) as Hy.
      { intros a [->|Ha]%elem_of_cons; [done|]. apply Hg; [done|]. by left. }
      intros a b Ha Hb. by rewrite (Hy a), (Hy b).
    + constructor; [|by constructor].
      by intros a b ->%list_elem_of_singleton ->%list_elem_of_singleton.
Qed.

Lemma elem_of_first_occurrences (ks : list K) k :
  k ∈ first_occurrences ks ↔ k ∈ ks.
Proof.
  induction ks as [|k' ks IH]; simpl; [done|].
  rewrite !elem_of_cons, list_elem_of_filter, IH.
  destruct (decide (k = k')); naive_solver.
Qed.

Lemma NoDup_first_occurrences (ks : list K) : NoDup (first_occurrences ks).
Proof.
  induction ks as [|k ks IH]; simpl; constructor.
  - rewrite list_elem_of_filter. naive_solver.
  - by apply NoDup_filter.
Qed.

Lemma filter_key_absent k xs :
  k ∉ key <$> xs → filter (λ x, key x = k) xs = [].
Proof.
  intros Hk. apply filter_none. apply Forall_forall. intros x Hx Hkx.
  apply Hk. rewrite <-Hkx. by apply list_elem_of_fmap_2.
Qed.

(** With equal keys next to each other, the runs are the classes of the keys,
    in the order in which the keys first occur. *)
Lemma group_adjacent_grouped xs :
  grouped (key <$> xs) →
  group_adjacent key xs
  = (λ k, filter (λ x, key x = k) xs) <$> first_occurrences (key <$> xs).
Proof.
  induction xs as [|x xs IH]; [done|].
  intros [Hx Hg]. specialize (IH Hg).
  cbn [group_adjacent fmap list_fmap first_occurrences].
  rewrite filter_cons_True by done.
  assert (((λ k, filter (λ x0, key x0 = k) (x :: xs)) <$>
             filter (λ k', k' ≠ key x) (first_occurrences (key <$> xs)))
          = (λ k, filter (λ x0, key x0 = k) xs) <$>
             filter (λ k', k' ≠ key x) (first_occurrences (key <$> xs))) as ->.
  { apply Forall_fmap_ext_1, Forall_forall.
    intros k [Hk _]%list_elem_of_filter.
    by rewrite filter_cons_False by done. }
  destruct xs as [|y xs]; [done|].
  destruct (group_adjacent_cons y xs) as (g & gs & Hgs).
  rewrite Hgs in IH |- *. cbn [fmap list_fmap first_occurrences] in IH.
  injection IH as Hfirst Hrest.
  destruct (decide (key x = key y)) as [Hxy|Hxy].
  - f_equal.
    + rewrite Hxy. by rewrite <-Hfirst.
    + cbn [fmap list_fmap first_occurrences].
      rewrite filter_cons_False by (intros Hne; by apply Hne).
      rewrite Hxy. rewrite list_filter_filter.
      rewrite Hrest. f_equal. apply list_filter_iff. intros k. tauto.
  - assert (key x ∉ key <$> (y :: xs)) as Hnotin.
    { destruct Hx as [Hhd|]; [|done]. simpl in Hhd. congruence. }
    f_equal.
    + by rewrite filter_key_absent.
    + rewrite filter_all; [by rewrite Hfirst, Hrest|].
      apply Forall_forall. intros k Hk Heq.
      apply (proj1 (elem_of_first_occurrences _ _)) in Hk.
      apply Hnotin. by rewrite <-Heq.
Qed.

End runs.

Lemma value_changes_ge pos prev ar :
  Forall (λ i, pos ≤ i) (value_changes pos prev ar).
Proof.
  revert pos prev. induction ar as [|x ar IH]; intros pos prev; simpl;
    [constructor|].
  assert (Forall (λ i, pos ≤ i) (value_changes (S pos) x ar)).
  { eapply Forall_impl; [apply IH|]. simpl. lia. }
  case_decide; [done|]. by constructor.
Qed.

Lemma split_from_cons {A} s (a : A) l indices h t :
  Forall (λ i, s < i) indices →
  split_from (S s) l indices = h :: t →
  split_from s (a :: l) indices = (a :: h) :: t.
Proof.
  destruct indices as [|i indices]; simpl.
  - by intros _ [= <- <-].
  - intros [Hi _]%Forall_cons [= <- <-].
    replace (i - s) with (S (i - S s)) by lia. done.
Qed.

Lemma split_from_group_adjacent {X A} (key : X → option string) (f : X → A)
    (s : nat) (x : X) (xs : list X) :
  split_from s (f <$> x :: xs) (value_changes (S s) (key x) (key <$> xs))
  = (λ g : list X, f <$> g) <$> group_adjacent key (x :: xs).
Proof.
  revert s x. induction xs as [|y xs IH]; intros s x; [done|].
  specialize (IH (S s) y).
  destruct (group_adjacent_cons key y xs) as (g & gs & Hgs).
  rewrite (group_adjacent_unfold key x (y :: xs)), Hgs. rewrite Hgs in IH.
  rewrite (fmap_cons key y xs). cbn [value_changes].
  rewrite !fmap_cons in IH |- *.
  destruct (decide (key y = key x)) as [Hyx|Hyx].
  - rewrite decide_True by done. rewrite fmap_cons.
    apply (split_from_cons s (f x) (f y :: (f <$> xs))); [|done].
    eapply Forall_impl; [apply value_changes_ge|]. simpl. lia.
  - rewrite decide_False by done. rewrite !fmap_cons.
    cbn [split_from]. replace (S s - s) with 1 by lia.
    cbn [take drop]. by rewrite IH.
Qed.

(** [np.split] at the changes of the keys gives the runs of equal keys. *)
Lemma np_split_group_adjacent {X A} (key : X → option string) (f : X → A)
    (xs : list X) :
  xs ≠ [] →
  np_split (f <$> xs) (tail (unique_index (key <$> xs)))
  = (λ g : list X, f <$> g) <$> group_adjacent key xs.
Proof.
  destruct xs as [|x xs]; [done|]. intros _.
  apply split_from_group_adjacent.
Qed.

(** ** Results of [mapM] *)

Lemma mapM_Return {A B} (f : A → result B) (l : list A) (k : list B) :
  mapM f l = Return k ↔ Forall2 (λ x y, f x = Return y) l k.
Proof.
  revert k. induction l as [|x l IH]; intros k; simpl.
  - split; [by intros [= <-]|by inversion 1].
  - split.
    + destruct (f x) as [y|] eqn:Hy; simpl; [|done].
      destruct (mapM f l) as [k'|] eqn:Hk; simpl; [|done].
      intros [= <-]. constructor; [done|]. by apply IH.
    + inversion 1 as [|? y ? k' Hy Hk]; subst. rewrite Hy. simpl.
      apply IH in Hk. by rewrite Hk.
Qed.

Lemma getitem_Return {A} (l : list A) (i : nat) (x : A) :
  getitem l i = Return x ↔ l !! i = Some x.
Proof. unfold getitem. destruct (l !! i); naive_solver. Qed.

Lemma mapM_getitem_Return {A} (l : list A) (indexes : list nat) (k : list A) :
  mapM (getitem l) indexes = Return k
  ↔ Forall2 (λ i x, l !! i = Some x) indexes k.
Proof.
  rewrite mapM_Return.
  split; intros Hall; (eapply Forall2_impl; [exact Hall|]);
    intros i x; apply getitem_Return.
Qed.

Lemma mapM_getitem_zip {A} (l : list A) (indexes : list nat) (k : list A) :
  mapM (getitem l) indexes = Return k →
  zip indexes k = omap (λ i, pair i <$> l !! i) indexes.
Proof.
  rewrite mapM_getitem_Return.
  induction 1 as [|i x indexes k Hi _ IH]; [done|].
  cbn. rewrite Hi. cbn. by rewrite <-IH.
Qed.

Lemma omap_lookup_seq {A} (l0 l : list A) :
  omap (λ i, pair i <$> (l0 ++ l) !! i) (seq (length l0) (length l))
  = zip (seq (length l0) (length l)) l.
Proof.
  revert l0. induction l as [|x l IH]; intros l0; [done|].
  cbn. rewrite list_lookup_middle by done. cbn. f_equal.
  specialize (IH (l0 ++ [x])). rewrite length_app, Nat.add_1_r in IH.
  by rewrite <-(assoc_L (++)) in IH.
Qed.

(** The rows with their positions, in the order of the sorted positions, are
    a permutation of the table. *)
Lemma mapM_getitem_perm {A} (l : list A) (indexes : list nat) (k : list A) :
  indexes ≡ₚ seq 0 (length l) →
  mapM (getitem l) indexes = Return k →
  zip indexes k ≡ₚ zip (seq 0 (length l)) l.
Proof.
  intros Hperm Hk. rewrite (mapM_getitem_zip _ _ _ Hk), Hperm.
  exact (reflexive_eq _ _ (omap_lookup_seq [] l)).
Qed.

(** ** Sorted keys are grouped *)

Lemma grouped_fmap_inj {A B} (f : A → B) `{!Inj (=) (=) f} (ks : list A) :
  grouped ks → grouped (f <$> ks).
Proof.
  induction ks as [|k ks IH]; [done|]. intros [Hk Hg]. split; [|by apply IH].
  destruct Hk as [Hk|Hk].
  - left. destruct ks; simplify_eq/=. done.
  - right. intros (k' & Hkk' & Hin)%list_elem_of_fmap.
    apply (inj f) in Hkk' as ->. done.
Qed.

Lemma grouped_short {K} (ks : list K) : length ks ≤ 1 → grouped ks.
Proof.
  destruct ks as [|k [|k' ks]]; simpl; [done| |lia].
  intros _. split; [|done]. right. apply not_elem_of_nil.
Qed.

Lemma Sorted_grouped (ks : list string) : Sorted String.le ks → grouped ks.
Proof.
  intros Hs%Sorted_StronglySorted; [|apply _].
  induction Hs as [|k ks Hs IH Hall]; [done|]. split; [|done].
  destruct ks as [|k' ks]; [right; apply not_elem_of_nil|].
  destruct (decide (k = k')) as [->|Hne]; [by left|right].
  intros Hin. apply Hne.
  apply Forall_cons in Hall as [Hkk' _].
  apply StronglySorted_inv in Hs as [_ Hall'].
  apply elem_of_cons in Hin as [->|Hin]; [done|].
  apply (anti_symm String.le); [done|].
  by eapply Forall_forall in Hall'.
Qed.

(** ** Structure of the normalised groups *)

Lemma omap_length_le {A B} (f : A → option B) (l : list A) :
  length (omap f l) ≤ length l.
Proof.
  induction l as [|x l IH]; [done|]. cbn. destruct (f x); simpl; lia.
Qed.

Section normalizer.
Context `{ArgSort} {I : Type}.
Implicit Types traits : list (trait I).

Lemma mapM_id_Some (types : list (option string)) (keys : list string) :
  mapM id types = Some keys → types = Some <$> keys.
Proof.
  rewrite mapM_Some. induction 1 as [|x y ? ? Hxy _ IH]; [done|].
  simpl in Hxy. by rewrite Hxy, IH.
Qed.

Lemma omap_lookup_fmap_Some (keys : list string) (indexes : list nat) :
  omap (λ i, (Some <$> keys) !! i) indexes
  = Some <$> omap (λ i, keys !! i) indexes.
Proof.
  induction indexes as [|i indexes IH]; [done|].
  cbn. rewrite list_lookup_fmap. destruct (keys !! i); cbn; by rewrite IH.
Qed.

Lemma argsort_types_perm types indexes :
  argsort_types types = Return indexes → indexes ≡ₚ seq 0 (length types).
Proof.
  unfold argsort_types. case_decide; [by intros [= <-]|].
  destruct (mapM id types) as [keys|] eqn:Hkeys; [|done]. intros [= <-].
  apply mapM_id_Some in Hkeys as ->. rewrite length_fmap. apply argsort_perm.
Qed.

Lemma argsort_types_grouped types indexes :
  argsort_types types = Return indexes →
  grouped (omap (λ i, types !! i) indexes).
Proof.
  unfold argsort_types. case_decide as Hlen.
  - intros [= <-]. apply grouped_short.
    etrans; [apply omap_length_le|]. by rewrite length_seq.
  - destruct (mapM id types) as [keys|] eqn:Hkeys; [|done]. intros [= <-].
    apply mapM_id_Some in Hkeys as ->. rewrite omap_lookup_fmap_Some.
    apply grouped_fmap_inj; [apply _|]. apply Sorted_grouped, argsort_sorted.
Qed.

Lemma sorted_traits_types traits indexes sorted_traits :
  mapM (getitem traits) indexes = Return sorted_traits →
  trait_type <$> sorted_traits
  = omap (λ i, (trait_type <$> traits) !! i) indexes.
Proof.
  rewrite mapM_getitem_Return.
  induction 1 as [|i t ? ? Hi _ IH]; [done|].
  cbn. rewrite list_lookup_fmap, Hi. cbn. by rewrite IH.
Qed.

Lemma entry_key_zip (indexes : list nat) (ts : list (trait I)) :
  length indexes = length ts →
  entry_key <$> zip indexes ts = trait_type <$> ts.
Proof.
  revert ts. induction indexes as [|i indexes IH]; intros [|t ts] ?;
    simplify_eq/=; [done|]. f_equal. by apply IH.
Qed.

Lemma entry_weight_zip (indexes : list nat) (ts : list (trait I)) :
  entry_weight <$> zip indexes ts
  = zip indexes ((λ t, Float.of_int (rarity_weight t)) <$> ts).
Proof.
  revert ts. induction indexes as [|i indexes IH]; intros [|t ts];
    simplify_eq/=; [done..|]. f_equal. by apply IH.
Qed.

(** The groups are the normalised runs of equal type in a rearrangement of
    the table in which equal types are next to each other. *)
Lemma normalized_groups_runs traits groups :
  __get_normalized_rarity_weight_groups traits = Return groups →
  ∃ xs : list (nat * trait I),
    xs ≡ₚ entries traits ∧
    grouped (entry_key <$> xs) ∧
    groups = (λ g, _normalize_indexed_rarity_weights (entry_weight <$> g))
               <$> group_adjacent entry_key xs.
Proof.
  unfold __get_normalized_rarity_weight_groups.
  destruct traits as [|t0 traits0] eqn:Htraits; [done|]. rewrite <-Htraits.
  destruct (argsort_types (trait_type <$> traits)) as [indexes|] eqn:Hidx;
    [|done]. cbn.
  destruct (mapM (getitem traits) indexes) as [sorted_traits|] eqn:Hsorted;
    [|done]. cbn. intros [= <-].
  pose proof (argsort_types_perm _ _ Hidx) as Hperm.
  rewrite length_fmap in Hperm.
  assert (length indexes = length sorted_traits) as Hlen.
  { apply mapM_getitem_Return in Hsorted. by eapply Forall2_length. }
  exists (zip indexes sorted_traits). split_and!.
  - by apply mapM_getitem_perm.
  - rewrite entry_key_zip by done.
    rewrite (sorted_traits_types _ _ _ Hsorted).
    by apply argsort_types_grouped.
  - rewrite <-(entry_key_zip indexes) by done.
    rewrite <-entry_weight_zip.
    rewrite np_split_group_adjacent.
    + by rewrite <-list_fmap_compose.
    + apply Permutation_length in Hperm.
      rewrite length_seq, Htraits in Hperm.
      destruct indexes, sorted_traits; simplify_eq/=. done.
Qed.

End normalizer.

(** ** Sums of weights *)

#[global] Instance Zsum_Permutation : Proper ((≡ₚ) ==> (=)) Zsum.
Proof. induction 1; simpl; lia. Qed.

Lemma sum_of_ints_from (a : Q) (zs : list Z) :
  ∃ q, foldl Float.add (Finite a) (Float.of_int <$> zs) = Finite q
       ∧ (q == a + inject_Z (Zsum zs))%Q.
Proof.
  revert a. induction zs as [|z zs IH]; intros a; simpl.
  - exists a. split; [done|]. unfold Zsum; simpl. ring.
  - destruct (IH (a + inject_Z z)%Q) as (q & Hq & Heq).
    exists q. split; [done|]. rewrite Heq.
    change (Zsum (z :: zs)) with (z + Zsum zs)%Z.
    rewrite inject_Z_plus. ring.
Qed.

Lemma sum_of_ints (zs : list Z) :
  ∃ q, Float.sum (Float.of_int <$> zs) = Finite q
       ∧ (q == inject_Z (Zsum zs))%Q.
Proof.
  destruct (sum_of_ints_from 0 zs) as (q & Hq & Heq).
  exists q. split; [done|]. rewrite Heq. ring.
Qed.

Lemma div_by_nonzero (z : Z) (T : Q) :
  ¬ (T == 0)%Q →
  Float.div (Float.of_int z) (Finite T) = Finite (inject_Z z / T).
Proof.
  intros HT. unfold Float.div, Float.of_int.
  destruct (Qeq_bool T 0) eqn:Hb; [|done].
  by apply Qeq_bool_iff in Hb.
Qed.



(** ** The groups, one per trait type *)

Section groups.
Context `{ArgSort} {I : Type}.
Implicit Types traits : list (trait I).
Implicit Types xs run : list (nat * trait I).

Lemma elem_of_entries traits i t :
  (i, t) ∈ entries traits ↔ traits !! i = Some t.
Proof.
  unfold entries. split.
  - intros (j & Hj)%list_elem_of_lookup_1.
    apply lookup_zip_with_Some in Hj as (i' & t' & [= -> ->] & Hi & Ht).
    apply lookup_seq in Hi as [-> _]. done.
  - intros Hi. apply list_elem_of_lookup. exists i.
    apply lookup_zip_with_Some. exists i, t. split_and!; [done| |done].
    apply lookup_seq. split; [done|]. by eapply lookup_lt_Some.
Qed.

Lemma fst_entries traits : (entries traits).*1 = seq 0 (length traits).
Proof. unfold entries. by rewrite fst_zip by (by rewrite length_seq). Qed.

Lemma filter_entries_snd (c : option string) s traits :
  (filter (λ e : nat * trait I, entry_key e = c)
          (zip (seq s (length traits)) traits)).*2
  = filter (λ t, trait_type t = c) traits.
Proof.
  revert s. induction traits as [|t traits IH]; intros s; [done|].
  cbn [length seq zip zip_with].
  destruct (decide (trait_type t = c)) as [Ht|Ht].
  - rewrite !filter_cons_True by done. cbn. by rewrite IH.
  - rewrite !filter_cons_False by done. by rewrite IH.
Qed.

Lemma normalize_entries run :
  ∃ T, Float.sum (entry_weight <$> run).*2 = Finite T
       ∧ (T == inject_Z (Zsum ((λ e, rarity_weight e.2) <$> run)))%Q
       ∧ _normalize_indexed_rarity_weights (entry_weight <$> run)
         = (λ e, (e.1, Float.div (Float.of_int (rarity_weight e.2)) (Finite T)))
             <$> run.
Proof.
  assert ((entry_weight <$> run).*2
          = Float.of_int <$> ((λ e, rarity_weight e.2) <$> run)) as Hw.
  { rewrite <-!list_fmap_compose. done. }
  destruct (sum_of_ints ((λ e, rarity_weight e.2) <$> run)) as (T & HT & Heq).
  exists T. rewrite Hw. split_and!; [done..|].
  unfold _normalize_indexed_rarity_weights. rewrite Hw, HT.
  clear. induction run as [|e run IH]; [done|]. cbn. by rewrite IH.
Qed.

(** Every group is the class of a trait type [c] of the table: its rows are
    the rows of that type, each with its weight divided by the total weight
    [T] of the type. *)
Lemma normalized_group_inv traits groups g :
  __get_normalized_rarity_weight_groups traits = Return groups →
  g ∈ groups →
  ∃ c run T,
    run ≠ [] ∧
    run ≡ₚ filter (λ e, entry_key e = c) (entries traits) ∧
    Zsum ((λ e, rarity_weight e.2) <$> run) = category_total traits c ∧
    (T == inject_Z (category_total traits c))%Q ∧
    g = (λ e, (e.1, Float.div (Float.of_int (rarity_weight e.2)) (Finite T)))
          <$> run.
Proof.
  intros (xs & Hperm & Hgrouped & ->)%normalized_groups_runs Hg.
  rewrite group_adjacent_grouped in Hg by done.
  rewrite <-list_fmap_compose in Hg.
  apply list_elem_of_fmap in Hg as (c & -> & Hc). cbn.
  set (run := filter (λ e, entry_key e = c) xs).
  destruct (normalize_entries run) as (T & _ & HT & Hnorm).
  assert (Zsum ((λ e, rarity_weight e.2) <$> run) = category_total traits c)
    as Htotal.
  { unfold category_total, run.
    rewrite Hperm, <-(filter_entries_snd c 0 traits).
    by rewrite <-list_fmap_compose. }
  exists c, run, T. split_and!.
  - apply (proj1 (elem_of_first_occurrences _ _)) in Hc.
    apply list_elem_of_fmap in Hc as (e & -> & He).
    intros Hnil. by eapply (filter_nil_not_elem_of _ xs e).
  - unfold run. by rewrite Hperm.
  - done.
  - by rewrite HT, Htotal.
  - done.
Qed.

(** The rows of a group are rows of the table, of the type of the group. *)
Lemma elem_of_class traits (c : option string) run i t :
  run ≡ₚ filter (λ e, entry_key e = c) (entries traits) →
  (i, t) ∈ run ↔ traits !! i = Some t ∧ trait_type t = c.
Proof.
  intros ->. rewrite list_elem_of_filter, elem_of_entries. naive_solver.
Qed.

(** The index columns of the groups together are the positions of the
    table. *)
Lemma normalized_groups_indexes traits groups :
  __get_normalized_rarity_weight_groups traits = Return groups →
  concat ((λ g : weight_matrix, g.*1) <$> groups) ≡ₚ seq 0 (length traits).
Proof.
  intros (xs & Hperm & _ & ->)%normalized_groups_runs.
  rewrite <-fst_entries, <-Hperm.
  assert (∀ runs : list (list (nat * trait I)),
    concat ((λ g : weight_matrix, g.*1) <$>
      ((λ g, _normalize_indexed_rarity_weights (entry_weight <$> g)) <$> runs))
    = (concat runs).*1) as Hruns.
  { induction runs as [|run runs IH]; [done|].
    cbn. rewrite fmap_app, <-IH. f_equal.
    destruct (normalize_entries run) as (T & _ & _ & ->).
    by rewrite <-list_fmap_compose. }
  by rewrite Hruns, group_adjacent_concat.
Qed.

End groups.

(** ** The probabilities of a group *)


(** ** One draw *)

Lemma sum_finite_inv (x : float64) (p : list float64) (s : Q) :
  foldl Float.add x p = Finite s →
  ∃ a qs, x = Finite a ∧ p = Finite <$> qs ∧ s = foldl Qplus a qs.
Proof.
  revert x. induction p as [|y p IH]; intros x; simpl.
  - intros ->. by exists s, [].
  - intros (b & qs & Hb & -> & ->)%IH.
    destruct x as [a|sx|], y as [q|sy|]; try done.
    + injection Hb as <-. by exists a, (q :: qs).
    + simpl in Hb. by destruct (Bool.eqb sx sy).
Qed.

Lemma foldl_Qplus_shift (a b : Q) (qs : list Q) :
  (foldl Qplus (a + b) qs == a + foldl Qplus b qs)%Q.
Proof.
  revert b. induction qs as [|q qs IH]; intros b; simpl; [reflexivity|].
  rewrite <-IH.
  assert (∀ x y, (x == y)%Q → (foldl Qplus x qs == foldl Qplus y qs)%Q) as Hp.
  { clear. induction qs as [|q qs IH]; intros x y Hxy; simpl; [done|].
    apply IH. by rewrite Hxy. }
  apply Hp. ring.
Qed.

Lemma cumsum_from_last (acc : Q) (qs : list Q) (d : float64) :
  qs ≠ [] →
  List.last (Float.cumsum_from (Finite acc) (Finite <$> qs)) d
  = Finite (foldl Qplus acc qs).
Proof.
  revert acc. induction qs as [|q qs IH]; intros acc Hne; [done|].
  destruct qs as [|q' qs]; [done|].
  specialize (IH (acc + q)%Q). rewrite !fmap_cons in IH |- *.
  cbn [Float.cumsum_from Float.add foldl] in IH |- *.
  rewrite <-IH by done. done.
Qed.

Lemma cumsum_last (q : Q) (qs : list Q) (d : float64) :
  List.last (Float.cumsum (Finite <$> q :: qs)) d = Finite (foldl Qplus q qs).
Proof.
  destruct qs as [|q' qs]; [done|].
  rewrite <-(cumsum_from_last q (q' :: qs) d) by done. done.
Qed.

Section inverse_cdf.
Context (L u : Q) (HL : (0 < L)%Q).

Lemma ltb_quotient (c : Q) :
  Float.ltb (Finite u) (Float.div (Finite c) (Finite L))
  = negb (Qle_bool (c / L) u).
Proof.
  unfold Float.div. destruct (Qeq_bool L 0) eqn:Hb; [|done].
  apply Qeq_bool_iff in Hb. rewrite Hb in HL. by apply Qlt_irrefl in HL.
Qed.

Lemma quotient_step (acc q : Q) :
  (acc / L <= u)%Q → (u < (acc + q) / L)%Q → (0 < q)%Q.
Proof.
  intros Hle Hlt. apply Qnot_le_lt. intros Hq.
  apply (Qlt_irrefl u). eapply Qlt_le_trans; [exact Hlt|].
  eapply Qle_trans; [|exact Hle].
  apply Qle_shift_div_r; [done|].
  assert (acc / L * L == acc)%Q as ->.
  { field. intros Heq. rewrite Heq in HL. by apply Qlt_irrefl in HL. }
  rewrite <-(Qplus_0_r acc) at 2. by apply Qplus_le_r.
Qed.

(** The position found in the cumulative distribution has a positive
    probability. *)
Lemma searchsorted_from_positive (acc : Q) (qs : list Q) :
  (acc / L <= u)%Q →
  Float.searchsorted_right
    ((λ c, Float.div c (Finite L))
       <$> Float.cumsum_from (Finite acc) (Finite <$> qs)) (Finite u)
    < length qs →
  ∃ q, qs !! Float.searchsorted_right
         ((λ c, Float.div c (Finite L))
            <$> Float.cumsum_from (Finite acc) (Finite <$> qs)) (Finite u)
       = Some q ∧ (0 < q)%Q.
Proof.
  revert acc. induction qs as [|q qs IH]; intros acc Hacc; [simpl; lia|].
  rewrite fmap_cons. cbn [Float.cumsum_from Float.add]. rewrite fmap_cons.
  cbn [Float.searchsorted_right]. rewrite ltb_quotient.
  destruct (Qle_bool ((acc + q) / L) u) eqn:Hle; cbn [negb].
  - apply Qle_bool_iff in Hle. intros Hlt. cbn [length] in Hlt.
    apply IH; [done|lia].
  - intros _. exists q. split; [done|].
    apply (quotient_step acc); [done|].
    apply Qnot_le_lt. intros Hle'. apply Qle_bool_iff in Hle'. congruence.
Qed.

Lemma searchsorted_positive (qs : list Q) :
  (0 <= u)%Q →
  Float.searchsorted_right
    ((λ c, Float.div c (Finite L)) <$> Float.cumsum (Finite <$> qs)) (Finite u)
    < length qs →
  ∃ q, qs !! Float.searchsorted_right
         ((λ c, Float.div c (Finite L)) <$> Float.cumsum (Finite <$> qs))
         (Finite u)
       = Some q ∧ (0 < q)%Q.
Proof.
  intros Hu. destruct qs as [|q qs]; [simpl; lia|].
  rewrite fmap_cons. cbn [Float.cumsum]. rewrite fmap_cons.
  cbn [Float.searchsorted_right]. rewrite ltb_quotient.
  destruct (Qle_bool (q / L) u) eqn:Hle; cbn [negb].
  - apply Qle_bool_iff in Hle. intros Hlt. cbn [length] in Hlt.
    apply searchsorted_from_positive; [done|lia].
  - intros _. exists q. split; [done|].
    apply (quotient_step 0).
    + unfold Qdiv. by rewrite Qmult_0_l.
    + rewrite Qplus_0_l.
      apply Qnot_le_lt. intros Hle'. apply Qle_bool_iff in Hle'. congruence.
Qed.

End inverse_cdf.




Section choice.
Context `{BitGenerator}.

(** What the validation of [choice] leaves: finite probabilities whose sum
    is positive. *)
Lemma choice_validated (p : list float64) :
  Float.isnan (Float.sum p) = false →
  Float.ltb atol (Float.abs (Float.sub (Float.sum p) (Finite 1))) = false →
  ∃ qs, p = Finite <$> qs ∧ (0 < foldl Qplus 0 qs)%Q.
Proof.
  intros Hnan Habs. destruct (Float.sum p) as [s| |] eqn:Hsum; [|done..].
  apply sum_finite_inv in Hsum as (a & qs & [= <-] & -> & ->).
  exists qs. split; [done|].
  change (negb (Qle_bool (Qabs (foldl Qplus 0 qs + - 1)) (1 # 67108864))%Q
          = false) in Habs.
  apply negb_false_iff, Qle_bool_iff in Habs.
  apply Qabs_Qle_condition in Habs as [Hlow _].
  apply (Qlt_le_trans _ ((1 # 2) + - (1 # 67108864))); [done|].
  apply (Qplus_le_l _ _ (-1)). eapply Qle_trans; [|exact Hlow]. done.
Qed.

Lemma choice_Return (a : list nat) (p : list float64) (r r' : rng) (x : nat) :
  choice a p r = Return (x, r') →
  ∃ idx q, a !! idx = Some x ∧ p !! idx = Some (Finite q) ∧ (0 < q)%Q.
Proof.
  unfold choice. repeat (case_decide; [done|]).
  destruct (Float.isnan (Float.sum p)) eqn:Hnan; [done|].
  destruct (existsb _ p); [done|].
  destruct (Float.ltb atol _) eqn:Habs; [done|].
  destruct (choice_validated p Hnan Habs) as (qs & -> & Hpos).
  destruct qs as [|q0 qs].
  { destruct a; simplify_eq/=. }
  rewrite cumsum_last.
  assert (0 < foldl Qplus q0 qs)%Q as HL.
  { cbn [foldl] in Hpos. rewrite foldl_Qplus_shift in Hpos.
    by rewrite Qplus_0_l in Hpos. }
  destruct (random r) as [u r0] eqn:Hu.
  pose proof (random_range r) as [Hu0 _]. rewrite Hu in Hu0. cbn in Hu0.
  set (idx := Float.searchsorted_right _ _).
  destruct (getitem a idx) as [x'|] eqn:Hx; [|done]. cbn. intros [= -> ->].
  apply getitem_Return in Hx.
  destruct (searchsorted_positive _ u HL (q0 :: qs) Hu0) as (q & Hq & Hqpos).
  { fold idx. apply lookup_lt_Some in Hx.
    match goal with Hlen : length _ = length a |- _ =>
      rewrite length_fmap in Hlen; rewrite Hlen end.
    done. }
  exists idx, q. split_and!; [done| |done].
  fold idx in Hq. rewrite <-(fmap_cons Finite), list_lookup_fmap.
  by rewrite Hq.
Qed.



End choice.

(** ** One token *)

Lemma lookup_fst_snd {A B} (l : list (A * B)) (i : nat) (a : A) (b : B) :
  l.*1 !! i = Some a → l.*2 !! i = Some b → (a, b) ∈ l.
Proof.
  rewrite !list_lookup_fmap. destruct (l !! i) as [[a' b']|] eqn:Hl; [|done].
  intros [= <-] [= <-]. by eapply list_elem_of_lookup_2.
Qed.

Section sampler.
Context `{ArgSort} `{BitGenerator} {I : Type}.
Implicit Types traits : list (trait I).
Implicit Types groups : list weight_matrix.

(** Every position drawn has a positive probability in its group. *)
Lemma choose_each_Return groups r picked r' :
  choose_each groups r = Return (picked, r') →
  Forall2 (λ (g : weight_matrix) i, ∃ q, (i, Finite q) ∈ g ∧ (0 < q)%Q)
          groups picked.
Proof.
  revert r picked. induction groups as [|g groups IH]; intros r picked; simpl.
  - intros [= <- _]. constructor.
  - destruct (choice g.*1 g.*2 r) as [[i r1]|] eqn:Hi; [|done]. cbn.
    destruct (choose_each groups r1) as [[rest r2]|] eqn:Hrest; [|done]. cbn.
    intros [= <- <-]. constructor; [|by eapply IH].
    apply choice_Return in Hi as (idx & q & Ha & Hp & Hq).
    exists q. split; [|done]. by eapply lookup_fst_snd.
Qed.



Lemma np_sort_perm (a : list nat) : np_sort a ≡ₚ a.
Proof. apply merge_sort_Permutation. Qed.

Lemma np_sort_sorted (a : list nat) : Sorted (≤) (np_sort a).
Proof. apply (Sorted_merge_sort (≤)). Qed.

Lemma random_trait_indexes_Return groups r indexes r' :
  random_trait_indexes groups r = Return (indexes, r') →
  ∃ picked, choose_each groups r = Return (picked, r')
            ∧ indexes = np_sort picked.
Proof.
  unfold random_trait_indexes.
  destruct (choose_each groups r) as [[picked r1]|]; [|done]. cbn.
  intros [= <- <-]. by exists picked.
Qed.

Lemma get_random_traits_Return traits groups r random_traits r' :
  __get_random_traits traits groups r = Return (random_traits, r') →
  ∃ indexes, random_trait_indexes groups r = Return (indexes, r')
             ∧ Forall2 (λ i t, traits !! i = Some t) indexes random_traits.
Proof.
  unfold __get_random_traits.
  destruct (random_trait_indexes groups r) as [[indexes r1]|]; [|done]. cbn.
  destruct (mapM (getitem traits) indexes) as [ts|] eqn:Hts; [|done]. cbn.
  intros [= <- <-]. exists indexes. split; [done|].
  by apply mapM_getitem_Return.
Qed.

(** The probability of a row in its group: its weight over the total weight
    of its trait type. *)
Lemma group_probability traits groups (g : weight_matrix) i p :
  __get_normalized_rarity_weight_groups traits = Return groups →
  g ∈ groups → (i, p) ∈ g →
  ∃ t T, traits !! i = Some t
         ∧ (T == inject_Z (category_total traits (trait_type t)))%Q
         ∧ p = Float.div (Float.of_int (rarity_weight t)) (Finite T).
Proof.
  intros Hgroups Hg Hip.
  destruct (normalized_group_inv _ _ _ Hgroups Hg)
    as (c & run & T & _ & Hrun & _ & HT & ->).
  apply list_elem_of_fmap in Hip as ([i' t] & [= -> ->] & Hin).
  apply (elem_of_class _ _ _ _ _ Hrun) in Hin as [Hi <-].
  by exists t, T.
Qed.

(** Every row of a token has a rarity weight other than zero. *)
Lemma selected_weight_nonzero traits groups r indexes r' i :
  __get_normalized_rarity_weight_groups traits = Return groups →
  random_trait_indexes groups r = Return (indexes, r') →
  i ∈ indexes →
  ∃ t, traits !! i = Some t ∧ rarity_weight t ≠ 0%Z.
Proof.
  intros Hgroups (picked & Hpicked & ->)%random_trait_indexes_Return Hi.
  rewrite np_sort_perm in Hi.
  apply choose_each_Return in Hpicked.
  apply list_elem_of_lookup in Hi as [k Hk].
  destruct (Forall2_lookup_r _ _ _ _ _ Hpicked Hk) as (g & Hg & q & Hin & Hq).
  apply list_elem_of_lookup_2 in Hg.
  destruct (group_probability _ _ _ _ _ Hgroups Hg Hin) as (t & T & Ht & HT & Hp).
  exists t. split; [done|]. intros Hw. rewrite Hw in Hp.
  unfold Float.div, Float.of_int in Hp.
  destruct (Qeq_bool T 0); [done|]. injection Hp as ->.
  apply (Qlt_irrefl 0). eapply Qlt_le_trans; [exact Hq|].
  unfold Qdiv. rewrite Qmult_0_l. apply Qle_refl.
Qed.

End sampler.

(** ** The sampling loop *)

Section loop.
Context `{ArgSort} `{BitGenerator} {I : Type}.
Implicit Types traits : list (trait I).
Implicit Types groups : list weight_matrix.
Implicit Types token_data : list (list (trait I)).
Implicit Types generated_traits : gset (list (option string)).

Lemma trait_names_snoc token_data (token : list (trait I)) :
  trait_names (token_data ++ [token])
  = trait_names token_data ++ [trait_name <$> token].
Proof. unfold trait_names. by rewrite fmap_app. Qed.

Lemma sampling_loop_unfold fuel traits groups amount generated_traits
    token_data r :
  sampling_loop fuel traits groups amount generated_traits token_data r
  = if decide (length token_data < amount) then
      match fuel with
      | 0 => None
      | S fuel' =>
          match __get_random_traits traits groups r with
          | Raise e => Some (Raise e)
          | Return (random_traits, r') =>
              if decide ((trait_name <$> random_traits) ∈ generated_traits)
              then sampling_loop fuel' traits groups amount
                     generated_traits token_data r'
              else sampling_loop fuel' traits groups amount
                     ({[trait_name <$> random_traits]} ∪ generated_traits)
                     (token_data ++ [random_traits]) r'
          end
      end
    else Some (Return token_data).
Proof. by destruct fuel. Qed.

(** The loop invariant: the set of generated name tuples is the set of the
    name tuples of the tokens written, and these are pairwise different. *)
Lemma sampling_loop_inv fuel traits groups amount generated_traits
    token_data r result :
  sampling_loop fuel traits groups amount generated_traits token_data r
  = Some (Return result) →
  (∀ names, names ∈ generated_traits ↔ names ∈ trait_names token_data) →
  NoDup (trait_names token_data) →
  NoDup (trait_names result)
  ∧ (length token_data ≤ amount → length result = amount)
  ∧ ∀ token, token ∈ result →
      token ∈ token_data
      ∨ ∃ r0 r1, __get_random_traits traits groups r0 = Return (token, r1).
Proof.
  revert generated_traits token_data r.
  induction fuel as [|fuel IH]; intros generated_traits token_data r;
    rewrite sampling_loop_unfold; case_decide as Hpos; try done.
  - intros [= <-] _ Hnodup. split_and!; [done|lia|by left].
  - destruct (__get_random_traits traits groups r)
      as [[random_traits r']|] eqn:Hdraw; [|done].
    case_decide as Hseen.
    + intros Hloop Hgen Hnodup.
      destruct (IH _ _ _ Hloop Hgen Hnodup) as (? & ? & ?). done.
    + intros Hloop Hgen Hnodup.
      destruct (IH _ _ _ Hloop) as (Hres & Hlen & Hfrom).
      * intros names. rewrite trait_names_snoc.
        rewrite elem_of_union, elem_of_singleton, elem_of_app,
          list_elem_of_singleton, Hgen. tauto.
      * rewrite trait_names_snoc.
        apply NoDup_app. split_and!; [done| |apply NoDup_singleton].
        intros names Hin ->%list_elem_of_singleton. by apply Hseen, Hgen.
      * split_and!; [done| |].
        -- intros _. apply Hlen. rewrite length_app. simpl. lia.
        -- intros token [[Hin|Hin%list_elem_of_singleton]%elem_of_app|Hin]%Hfrom;
             [by left| |by right].
           subst. right. eauto.
  - intros [= <-] _ Hnodup. split_and!; [done|lia|by left].
Qed.

(** More fuel does not change an outcome. *)
Lemma sampling_loop_fuel fuel fuel' traits groups amount generated_traits
    token_data r outcome :
  sampling_loop fuel traits groups amount generated_traits token_data r
  = Some outcome →
  fuel ≤ fuel' →
  sampling_loop fuel' traits groups amount generated_traits token_data r
  = Some outcome.
Proof.
  revert fuel' generated_traits token_data r.
  induction fuel as [|fuel IH]; intros fuel' generated_traits token_data r;
    rewrite !(sampling_loop_unfold _ traits); case_decide; try done.
  intros Hloop Hle. destruct fuel' as [|fuel']; [lia|].
  destruct (__get_random_traits traits groups r) as [[random_traits r']|];
    [|done].
  case_decide; apply IH; (done || lia).
Qed.


End loop.

Lemma elem_of_concat {A} (x : A) (ls : list (list A)) :
  x ∈ concat ls ↔ ∃ l, l ∈ ls ∧ x ∈ l.
Proof.
  induction ls as [|l ls IH]; simpl.
  - split; [by intros ?%elem_of_nil|]. by intros (l & ?%elem_of_nil & _).
  - rewrite elem_of_app, IH. setoid_rewrite elem_of_cons. naive_solver.
Qed.


(** ** The properties of the specification *)

Section specification.
Context `{ArgSort} `{BitGenerator} `{Platform}.


(** C10.  A row of rarity weight zero, in a trait type whose total weight is
    positive, gets the probability zero from the weight normaliser; no draw
    selects its position, and no token of any run contains the row. *)
Theorem zero_weight_never_selected {I} (traits : list (trait I))
    (groups : list weight_matrix) (i : nat) (t : trait I) :
  __get_normalized_rarity_weight_groups traits = Return groups →
  traits !! i = Some t →
  rarity_weight t = 0%Z →
  (0 < category_total traits (trait_type t))%Z →
  (∃ (g : weight_matrix) p, g ∈ groups ∧ (i, Finite p) ∈ g ∧ (p == 0)%Q)
  ∧ (∀ r indexes r',
       random_trait_indexes groups r = Return (indexes, r') → i ∉ indexes)
  ∧ (∀ fuel amount r token_data,
       sampling_loop fuel traits groups amount ∅ [] r
       = Some (Return token_data) →
       ∀ token, token ∈ token_data → t ∉ token).
Proof.
  intros Hgroups Hi Hw Hpos. split_and!.
  - assert (i ∈ concat ((λ g : weight_matrix, g.*1) <$> groups)) as Hin.
    { rewrite (normalized_groups_indexes _ _ Hgroups).
      apply elem_of_seq. apply lookup_lt_Some in Hi. lia. }
    apply elem_of_concat in Hin as (l & Hl & Hil).
    apply list_elem_of_fmap in Hl as (g & -> & Hg).
    apply list_elem_of_fmap in Hil as ([i' p] & -> & Hip). cbn in Hi.
    destruct (group_probability _ _ _ _ _ Hgroups Hg Hip)
      as (t' & T & Ht' & HT & ->).
    cbn in Ht'. assert (t' = t) as -> by congruence.
    assert (¬ (T == 0)%Q) as HT0.
    { rewrite HT. intros Heq.
      apply (proj1 (inject_Z_injective _ 0%Z)) in Heq. lia. }
    rewrite Hw, div_by_nonzero in Hip by done.
    exists g, (inject_Z 0 / T)%Q. split_and!; [done..|].
    unfold Qdiv. by rewrite Qmult_0_l.
  - intros r indexes r' Hdraw Hin.
    destruct (selected_weight_nonzero _ _ _ _ _ _ Hgroups Hdraw Hin)
      as (t' & Ht' & Hne).
    congruence.
  - intros fuel amount r token_data Hloop token Htoken Ht.
    destruct (sampling_loop_inv _ _ _ _ _ _ _ _ Hloop) as (_ & _ & Hfrom).
    { intros names. cbn. rewrite elem_of_nil. set_solver. }
    { constructor. }
    destruct (Hfrom _ Htoken) as [Hnil|(r0 & r1 & Hdraw)];
      [by apply elem_of_nil in Hnil|].
    apply get_random_traits_Return in Hdraw as (indexes & Hdraw & Hrows).
    apply list_elem_of_lookup in Ht as [k Hk].
    destruct (Forall2_lookup_r _ _ _ _ _ Hrows Hk) as (i' & Hi' & Hrow).
    apply list_elem_of_lookup_2 in Hi'.
    destruct (selected_weight_nonzero _ _ _ _ _ _ Hgroups Hdraw Hi')
      as (t' & Ht' & Hne).
    congruence.
Qed.

Lemma generate_token_data_fuel {I} (fuel fuel' : nat) (traits : list (trait I))
    (groups : list weight_matrix) (amount : nat) (r : rng)
    (outcome : result (list (list (token_trait I)))) :
  __generate_token_data fuel traits groups amount r = Some outcome →
  fuel ≤ fuel' →
  __generate_token_data fuel' traits groups amount r = Some outcome.
Proof.
  unfold __generate_token_data. intros Hrun Hle.
  destruct (sampling_loop fuel traits groups amount ∅ [] r) as [o|] eqn:Hloop;
    [|done].
  by rewrite (sampling_loop_fuel _ _ _ _ _ _ _ _ _ Hloop Hle).
Qed.

Lemma generate_token_data_of_fuel (fuel fuel' : nat) (os_entropy : N)
    (in_file : string) (csv : list (list string)) (amount : nat)
    (seed : option N) outcome :
  generate_token_data_of fuel os_entropy in_file csv amount seed
  = Some outcome →
  fuel ≤ fuel' →
  generate_token_data_of fuel' os_entropy in_file csv amount seed
  = Some outcome.
Proof.
  unfold generate_token_data_of.
  destruct (__load_traits in_file csv) as [traits|]; [|done].
  destruct (__get_normalized_rarity_weight_groups traits) as [groups|];
    [|done].
  apply generate_token_data_fuel.
Qed.


(** Seeded runs that finish leave the same tokens, metadata, statistics and
    images; only the name of the directory depends on the clock. *)
Lemma seeded_runs_same_content (fuel1 fuel2 : nat) (os_entropy1 os_entropy2 : N)
    (now1 now2 : string) (token_name in_file : string)
    (csv : list (list string)) (out_dir : string) (amount : nat) (seed : N)
    (content1 content2 : content) :
  generate_content fuel1 os_entropy1 now1 token_name in_file csv out_dir
    amount (Some seed) = Some (Return content1) →
  generate_content fuel2 os_entropy2 now2 token_name in_file csv out_dir
    amount (Some seed) = Some (Return content2) →
  content_token_data content1 = content_token_data content2
  ∧ content_metadata content1 = content_metadata content2
  ∧ content_statistics content1 = content_statistics content2
  ∧ content_images content1 = content_images content2.
Proof.
  unfold generate_content.
  destruct (generate_token_data_of fuel1 _ _ _ _ _) as [[data1|]|] eqn:Hrun1;
    [|done..].
  destruct (generate_token_data_of fuel2 _ _ _ _ _) as [[data2|]|] eqn:Hrun2;
    [|done..].
  assert (data1 = data2) as <-.
  { apply (generate_token_data_of_fuel _ (fuel1 `max` fuel2)) in Hrun1;
      [|lia].
    apply (generate_token_data_of_fuel _ (fuel1 `max` fuel2)) in Hrun2;
      [|lia].
    unfold generate_token_data_of, default_rng in Hrun1, Hrun2.
    cbn [default] in Hrun1, Hrun2. congruence. }
  destruct (__generate_metadata token_name data1) as [metadata|]; [|done].
  destruct (__generate_statistics token_name data1) as [stats|]; [|done].
  destruct (__generate_images token_name data1) as [images|]; [|done].
  by intros [= <-] [= <-].
Qed.

(** *** Images without a visible layer *)

Lemma reduce_images_absent (trait_images : list (option Image)) :
  trait_images ≠ [] → Forall (.= None) trait_images →
  reduce_images trait_images = Return None.
Proof.
  destruct trait_images as [|first rest]; [done|].
  intros _ [-> Hrest]%Forall_cons. simpl.
  induction Hrest as [|second rest -> _ IH]; [done|]. exact IH.
Qed.

Lemma save_images_absent (token_name : string) (pos : nat)
    (before after : list (list (option Image)))
    (trait_images : list (option Image)) (saved : list (string * Image)) :
  trait_images ≠ [] → Forall (.= None) trait_images →
  save_images token_name pos before = Return saved →
  save_images token_name pos (before ++ trait_images :: after)
  = Raise AttributeError.
Proof.
  intros Hne Habsent. revert pos saved.
  induction before as [|images before IH]; intros pos saved; simpl.
  - intros _. by rewrite reduce_images_absent.
  - destruct (reduce_images images) as [[image|]|]; cbn; [|done..].
    destruct (save_images token_name (S pos) before) as [saved'|] eqn:Hsaved;
      [|done].
    intros _. by rewrite (IH _ _ Hsaved).
Qed.

(** C5 (as amended).  When every slot of a token has an absent image, the
    compositor emits no image for it: the composite of its layers is [None],
    and saving it raises an [AttributeError], once the tokens before it have
    been rendered. *)
Theorem absent_layers_raise_AttributeError (token_name : string)
    (before after : list (list (token_trait Image)))
    (token : list (token_trait Image)) (saved : list (string * Image)) :
  token ≠ [] →
  Forall (λ t, slot_image t = None) token →
  __generate_images token_name before = Return saved →
  __generate_images token_name (before ++ token :: after)
  = Raise AttributeError.
Proof.
  intros Hne Habsent Hbefore. unfold __generate_images in *.
  rewrite fmap_app, fmap_cons.
  eapply save_images_absent; [by destruct token| |exact Hbefore].
  by apply Forall_fmap.
Qed.

End specification.

(** ** A request for more tokens than there are combinations *)

Section one_combination.
Context `{ArgSort} `{BitGenerator}.
Import Example.

Lemma one_trait_choice (r : rng) :
  choice [0] [Finite (1 / 1)] r = Return (0, (random r).2).
Proof.
  unfold choice.
  rewrite decide_False by done.
  rewrite decide_False by (intros Hne; by apply Hne).
  change (Float.isnan (Float.sum [Finite (1 / 1)])) with false. cbv iota.
  change (existsb _ [Finite (1 / 1)]) with false. cbv iota.
  change (Float.ltb atol
            (Float.abs (Float.sub (Float.sum [Finite (1 / 1)]) (Finite 1))))
    with false. cbv iota.
  pose proof (random_range r) as [_ Hu].
  destruct (random r) as [u r']. cbn [fst snd] in *.
  cbn [Float.cumsum Float.cumsum_from fmap list_fmap List.last
       Float.searchsorted_right].
  rewrite ltb_quotient by done.
  destruct (Qle_bool (1 / 1 / (1 / 1)) u) eqn:Hle; [|done].
  apply Qle_bool_iff in Hle. exfalso. apply (Qlt_irrefl u).
  eapply Qlt_le_trans; [exact Hu|]. exact Hle.
Qed.

Lemma one_trait_draw (r : rng) :
  __get_random_traits one_trait one_trait_groups r
  = Return (one_trait, (random r).2).
Proof.
  unfold __get_random_traits, random_trait_indexes, one_trait_groups.
  cbn [choose_each fmap list_fmap fst snd].
  by rewrite one_trait_choice.
Qed.

(** Once the only combination has been generated, every further draw is a
    duplicate. *)
Lemma one_trait_loop (fuel : nat) (r : rng) :
  sampling_loop fuel one_trait one_trait_groups 2
    ({[trait_name <$> one_trait]} ∪ ∅) ([] ++ [one_trait]) r = None.
Proof.
  revert r. induction fuel as [|fuel IH]; intros r; [done|].
  rewrite sampling_loop_unfold. rewrite decide_True by (simpl; lia).
  rewrite one_trait_draw. rewrite decide_True by set_solver. apply IH.
Qed.

(** C2 (code defect).  One trait type with one trait gives one combination;
    with [amount = 2] the sampling loop of the source is still running after
    any number of iterations, for every generator and every seed: it neither
    returns a set of tokens nor raises an error. *)
Theorem sampler_runs_forever (fuel : nat) (os_entropy : N) (seed : option N) :
  generate_token_data_of (platform := Instances.layered) fuel os_entropy
    "traits.csv" one_trait_csv 2 seed = None.
Proof.
  unfold generate_token_data_of.
  change (__load_traits (platform := Instances.layered) "traits.csv"
            one_trait_csv)
    with (Return one_trait).
  cbv iota. change (@Image Instances.layered) with Concrete.layers.
  change (__get_normalized_rarity_weight_groups one_trait)
    with (Return one_trait_groups).
  cbv iota. unfold __generate_token_data.
  destruct fuel as [|fuel]; [done|].
  rewrite sampling_loop_unfold. rewrite decide_True by (simpl; lia).
  rewrite one_trait_draw. rewrite decide_False by set_solver.
  by rewrite one_trait_loop.
Qed.

End one_combination.

(** ** A trait type of total weight zero *)

Section zero_total.
Context `{ArgSort} `{BitGenerator} {I : Type}.
Implicit Types traits : list (trait I).
Implicit Types groups : list weight_matrix.

(** The groups are the normalised classes of the trait types, in the order
    in which the sorted table first shows each type. *)
Lemma normalized_groups_classes traits groups :
  __get_normalized_rarity_weight_groups traits = Return groups →
  ∃ xs : list (nat * trait I),
    xs ≡ₚ entries traits ∧
    groups = (λ c, _normalize_indexed_rarity_weights
                     (entry_weight <$> filter (λ e, entry_key e = c) xs))
               <$> first_occurrences (entry_key <$> xs).
Proof.
  intros (xs & Hperm & Hgrouped & ->)%normalized_groups_runs.
  exists xs. split; [done|].
  rewrite group_adjacent_grouped by done. by rewrite <-list_fmap_compose.
Qed.

Lemma entry_key_entries traits :
  entry_key <$> entries traits = trait_type <$> traits.
Proof. apply entry_key_zip. by rewrite length_seq. Qed.




End zero_total.

Section zero_total_group.
Context `{ArgSort} `{BitGenerator} {I : Type}.
Implicit Types traits : list (trait I).



End zero_total_group.

(** ** The order of the traits of a token *)

Section order.
Context {K : Type} `{EqDecision K}.
Implicit Types ks : list K.

Lemma grouped_contiguous ks i l j a :
  grouped ks → ks !! i = Some a → ks !! j = Some a → i ≤ l ≤ j →
  ks !! l = Some a.
Proof.
  revert i l j. induction ks as [|k ks IH]; intros i l j Hg; [done|].
  destruct Hg as [Hk Hg].
  destruct i as [|i], j as [|j], l as [|l]; simpl; try done; try lia.
  - intros [= ->] Hj Hl.
    destruct Hk as [Hk|Hk]; [|by apply list_elem_of_lookup_2 in Hj].
    apply (IH 0 l j); [done| |done|lia]. by destruct ks.
  - intros Hi Hj ?. apply (IH i l j); [done..|lia].
Qed.

Lemma occurs_before_antisym ks a b :
  grouped ks → occurs_before ks a b → occurs_before ks b a → a = b.
Proof.
  intros Hg (i & j & Hij & Hi & Hj) (i' & j' & Hij' & Hi' & Hj').
  destruct (decide (i ≤ i')).
  - assert (ks !! i' = Some a) as Ha.
    { apply (grouped_contiguous ks i i' j'); [done..|lia]. }
    congruence.
  - assert (ks !! i = Some b) as Hb.
    { apply (grouped_contiguous ks i' i j); [done..|lia]. }
    congruence.
Qed.

Lemma occurs_before_cons k ks a b :
  occurs_before ks a b → occurs_before (k :: ks) a b.
Proof. intros (i & j & ? & ? & ?). exists (S i), (S j). split_and!; [lia|done..]. Qed.

Lemma StronglySorted_impl_elem {A} (R1 R2 : relation A) (l : list A) :
  (∀ x y, x ∈ l → y ∈ l → R1 x y → R2 x y) →
  StronglySorted R1 l → StronglySorted R2 l.
Proof.
  intros HR Hs. induction Hs as [|x l Hs IH Hall]; constructor.
  - apply IH. intros y z Hy Hz. apply HR; by right.
  - apply Forall_forall. intros y Hy. apply HR; [by left|by right|].
    by eapply Forall_forall in Hall.
Qed.

Lemma StronglySorted_filter {A} (R : relation A) (P : A → Prop)
    `{!∀ x, Decision (P x)} (l : list A) :
  StronglySorted R l → StronglySorted R (filter P l).
Proof.
  induction 1 as [|x l Hs IH Hall]; [constructor|].
  rewrite filter_cons. case_decide; [|done].
  constructor; [done|]. apply Forall_forall.
  intros y [_ Hy]%list_elem_of_filter. by eapply Forall_forall in Hall.
Qed.

Lemma first_occurrences_sorted ks :
  StronglySorted (occurs_before ks) (first_occurrences ks).
Proof.
  induction ks as [|k ks IH]; simpl; constructor.
  - apply StronglySorted_filter.
    eapply StronglySorted_impl_elem; [|exact IH].
    intros a b _ _. apply occurs_before_cons.
  - apply Forall_forall. intros b [Hb Hin]%list_elem_of_filter.
    apply (proj1 (elem_of_first_occurrences _ _)) in Hin.
    apply list_elem_of_lookup in Hin as [j Hj].
    exists 0, (S j). split_and!; [lia|done..].
Qed.

Lemma lookups_sorted ks (indexes : list nat) :
  StronglySorted lt indexes →
  StronglySorted (occurs_before ks) (omap (λ i, ks !! i) indexes).
Proof.
  induction 1 as [|i indexes Hs IH Hall]; [constructor|]. cbn.
  destruct (ks !! i) as [a|] eqn:Hi; [|done].
  constructor; [done|].
  apply Forall_forall. intros b (j & Hin & Hj)%list_elem_of_omap.
  exists i, j. split_and!; [|done..]. by eapply Forall_forall in Hall.
Qed.

End order.

Lemma Sorted_le_NoDup_lt (l : list nat) :
  Sorted le l → NoDup l → StronglySorted lt l.
Proof.
  intros Hs%Sorted_StronglySorted; [|apply _]. intros Hnd.
  induction Hs as [|x l Hs IH Hall]; [constructor|].
  apply NoDup_cons in Hnd as [Hx Hnd]. constructor; [by apply IH|].
  apply Forall_forall. intros y Hy.
  assert (x ≠ y) by (by intros ->).
  eapply Forall_forall in Hall; [|done]. lia.
Qed.

Section token_order.
Context `{ArgSort} `{BitGenerator} {I : Type}.
Implicit Types traits : list (trait I).
Implicit Types groups : list weight_matrix.

(** The rows drawn, group by group, are rows of the trait types of the
    groups, one of each type of the table. *)
Lemma picked_types traits groups r picked r' :
  __get_normalized_rarity_weight_groups traits = Return groups →
  choose_each groups r = Return (picked, r') →
  ∃ cs : list (option string),
    NoDup cs ∧ (∀ c, c ∈ cs ↔ c ∈ trait_type <$> traits) ∧
    Forall2 (λ c i, ∃ t, traits !! i = Some t ∧ trait_type t = c) cs picked.
Proof.
  intros (xs & Hperm & ->)%normalized_groups_classes
         Hpicked%choose_each_Return.
  exists (first_occurrences (entry_key <$> xs)). split_and!.
  - apply NoDup_first_occurrences.
  - intros c. by rewrite elem_of_first_occurrences, Hperm, entry_key_entries.
  - apply Forall2_fmap_l in Hpicked.
    eapply Forall2_impl; [exact Hpicked|].
    intros c i (q & Hin & _). cbn in Hin.
    destruct (normalize_entries (filter (λ e, entry_key e = c) xs))
      as (T & _ & _ & Hnorm).
    rewrite Hnorm in Hin.
    apply list_elem_of_fmap in Hin as ([i' t] & [= -> _] & Hin).
    apply list_elem_of_filter in Hin as [Hc Hin].
    rewrite Hperm in Hin. apply elem_of_entries in Hin. eauto.
Qed.

Lemma picked_NoDup traits (cs : list (option string)) (picked : list nat) :
  Forall2 (λ c i, ∃ t, traits !! i = Some t ∧ trait_type t = c) cs picked →
  NoDup cs → NoDup picked.
Proof.
  induction 1 as [|c i cs picked (t & Ht & Hc) Hrest IH]; [constructor|].
  intros [Hnotin Hnd]%NoDup_cons. constructor; [|by apply IH].
  intros (k & Hk)%list_elem_of_lookup.
  destruct (Forall2_lookup_r _ _ _ _ _ Hrest Hk) as (c' & Hc' & t' & Ht' & <-).
  apply Hnotin. apply list_elem_of_lookup_2 in Hc'. congruence.
Qed.

Lemma picked_lookup_types traits (cs : list (option string))
    (picked : list nat) :
  Forall2 (λ c i, ∃ t, traits !! i = Some t ∧ trait_type t = c) cs picked →
  omap (λ i, (trait_type <$> traits) !! i) picked = cs.
Proof.
  induction 1 as [|c i cs picked (t & Ht & Hc) _ IH]; [done|].
  cbn. rewrite list_lookup_fmap, Ht. cbn. by rewrite IH, Hc.
Qed.

(** One token: its rows stand in the order of their positions in the table,
    one row of each trait type; when equal types are next to each other in
    the table, this is the order in which the types first occur. *)
Lemma token_order traits groups r token r' :
  __get_normalized_rarity_weight_groups traits = Return groups →
  __get_random_traits traits groups r = Return (token, r') →
  ∃ indexes,
    StronglySorted lt indexes
    ∧ Forall2 (λ i t, traits !! i = Some t) indexes token
    ∧ trait_type <$> token ≡ₚ first_occurrences (trait_type <$> traits)
    ∧ (grouped (trait_type <$> traits) →
       trait_type <$> token = first_occurrences (trait_type <$> traits)).
Proof.
  intros Hgroups (indexes & Hdraw & Hrows)%get_random_traits_Return.
  apply random_trait_indexes_Return in Hdraw as (picked & Hpicked & ->).
  destruct (picked_types _ _ _ _ _ Hgroups Hpicked) as (cs & Hnd & Hcs & Hall).
  pose proof (picked_NoDup _ _ _ Hall Hnd) as Hnd_picked.
  assert (StronglySorted lt (np_sort picked)) as Hsorted.
  { apply Sorted_le_NoDup_lt; [apply np_sort_sorted|].
    by rewrite np_sort_perm. }
  assert (trait_type <$> token
          = omap (λ i, (trait_type <$> traits) !! i) (np_sort picked)) as Htypes.
  { clear -Hrows. induction Hrows as [|i t ? ? Hi _ IH]; [done|].
    cbn. rewrite list_lookup_fmap, Hi. cbn. by rewrite IH. }
  assert (trait_type <$> token ≡ₚ first_occurrences (trait_type <$> traits))
    as Hperm.
  { rewrite Htypes, np_sort_perm, (picked_lookup_types _ _ _ Hall).
    apply NoDup_Permutation; [done|apply NoDup_first_occurrences|].
    intros c. by rewrite Hcs, elem_of_first_occurrences. }
  exists (np_sort picked). split_and!; [done..|].
  intros Hgrouped.
  apply (StronglySorted_unique_strong (occurs_before (trait_type <$> traits)));
    [|by rewrite Htypes; apply lookups_sorted
     |apply first_occurrences_sorted|done].
  intros a b _ _. by apply occurs_before_antisym.
Qed.

End token_order.

(** *** The columns of the metadata *)

Lemma dict_setitem_fresh {K V} `{EqDecision K} (d : list (K * V)) (k : K)
    (v : V) :
  k ∉ d.*1 → dict_setitem d k v = d ++ [(k, v)].
Proof.
  induction d as [|[k' v'] d IH]; [done|]. cbn.
  intros [Hne Hnotin]%not_elem_of_cons.
  rewrite decide_False by done. by rewrite IH.
Qed.

Lemma dict_update_fresh {K V} `{EqDecision K} (d items : list (K * V)) :
  NoDup (d.*1 ++ items.*1) → dict_update d items = d ++ items.
Proof.
  unfold dict_update. revert d.
  induction items as [|[k v] items IH]; intros d Hnd; simpl.
  - by rewrite app_nil_r.
  - rewrite dict_setitem_fresh.
    + rewrite IH; [by rewrite <-(assoc_L (++))|].
      rewrite fmap_app, <-(assoc_L (++)). done.
    + apply NoDup_app in Hnd as (_ & Hdisj & _).
      intros Hin. apply (Hdisj _ Hin). by left.
Qed.

Lemma metadata_keys (label : option string)
    (pairs : list (option string * option string)) :
  NoDup (Some "Name" :: pairs.*1) →
  (dict_update [(Some "Name", label)] (dict_update [] pairs)).*1
  = Some "Name" :: pairs.*1.
Proof.
  intros Hnd. rewrite (dict_update_fresh [] pairs).
  - rewrite app_nil_l, dict_update_fresh; [done|exact Hnd].
  - by apply NoDup_cons in Hnd as [_ ?].
Qed.

(** The header of [metadata.csv] is [Name] and then the trait types in the
    order of the first token. *)
Lemma metadata_header {I} (token_name : string)
    (token_data : list (list (token_trait I))) header rows :
  (∀ first, token_data !! 0 = Some first →
            NoDup (Some "Name" :: (slot_type <$> first))) →
  __generate_metadata token_name token_data = Return (header, rows) →
  ∃ first, token_data !! 0 = Some first
           ∧ header = "Name" :: (csv_cell <$> (slot_type <$> first)).
Proof.
  intros Hnd. unfold __generate_metadata.
  destruct token_data as [|first token_data]; [done|].
  specialize (Hnd first eq_refl).
  rewrite imap_cons. cbn [getitem lookup list_lookup]. cbn [mbind result_bind].
  set (pairs := (λ t : token_trait I, (slot_type t, slot_name t)) <$> first).
  assert (pairs.*1 = slot_type <$> first) as Hkeys.
  { unfold pairs. by rewrite <-list_fmap_compose. }
  rewrite metadata_keys by (by rewrite Hkeys).
  destruct (mapM _ _) as [rows'|]; [|done]. cbn.
  intros [= <- _]. exists first. split; [done|].
  by rewrite Hkeys.
Qed.

Section specification_order.
Context `{ArgSort} `{BitGenerator}.

(** C1 (as amended).  In every token of a generated set, the selected traits
    stand in the order of their rows in the input trait table (ascending
    position), one trait of each trait type.  When the rows of each type are
    next to each other in the table, this is the order in which the types
    first occur in the table, the same for every token.  The columns of the
    metadata are [Name] and then the types in the order of the first token
    (no type being called [Name]). *)
Theorem tokens_follow_row_order {I} (fuel : nat) (traits : list (trait I))
    (groups : list weight_matrix) (amount : nat) (r : rng)
    (token_data : list (list (token_trait I))) :
  __get_normalized_rarity_weight_groups traits = Return groups →
  __generate_token_data fuel traits groups amount r
  = Some (Return token_data) →
  (∀ token, token ∈ token_data →
     ∃ indexes,
       StronglySorted lt indexes
       ∧ Forall2 (λ i t, delete_weight <$> traits !! i = Some t) indexes token
       ∧ slot_type <$> token ≡ₚ first_occurrences (trait_type <$> traits)
       ∧ (grouped (trait_type <$> traits) →
          slot_type <$> token = first_occurrences (trait_type <$> traits)))
  ∧ (∀ token_name header rows,
       Some "Name" ∉ trait_type <$> traits →
       __generate_metadata token_name token_data = Return (header, rows) →
       ∃ first, token_data !! 0 = Some first
                ∧ header = "Name" :: (csv_cell <$> (slot_type <$> first))).
Proof.
  intros Hgroups Hrun.
  assert (∀ token, token ∈ token_data →
     ∃ indexes,
       StronglySorted lt indexes
       ∧ Forall2 (λ i t, delete_weight <$> traits !! i = Some t) indexes token
       ∧ slot_type <$> token ≡ₚ first_occurrences (trait_type <$> traits)
       ∧ (grouped (trait_type <$> traits) →
          slot_type <$> token = first_occurrences (trait_type <$> traits)))
    as Htokens.
  { intros token Htoken. unfold __generate_token_data in Hrun.
    destruct (sampling_loop fuel traits groups amount ∅ [] r)
      as [[data|]|] eqn:Hloop; [|done..].
    injection Hrun as <-.
    apply list_elem_of_fmap in Htoken as (rows & -> & Hrows).
    destruct (sampling_loop_inv _ _ _ _ _ _ _ _ Hloop) as (_ & _ & Hfrom).
    { intros names. cbn. rewrite elem_of_nil. set_solver. }
    { constructor. }
    destruct (Hfrom _ Hrows) as [Hnil|(r0 & r1 & Hdraw)];
      [by apply elem_of_nil in Hnil|].
    destruct (token_order _ _ _ _ _ Hgroups Hdraw)
      as (indexes & Hsorted & Hlookup & Hperm & Heq).
    assert (slot_type <$> map delete_weight rows = trait_type <$> rows) as ->.
    { by rewrite <-list_fmap_compose. }
    exists indexes. split_and!; [done| |done..].
    apply Forall2_fmap_r. eapply Forall2_impl; [exact Hlookup|].
    intros i t ->. done. }
  split; [exact Htokens|].
  intros token_name header rows HName. apply metadata_header.
  intros first Hfirst%list_elem_of_lookup_2.
  destruct (Htokens _ Hfirst) as (_ & _ & _ & Hperm & _).
  rewrite Hperm. apply NoDup_cons. split; [|apply NoDup_first_occurrences].
  by rewrite elem_of_first_occurrences.
Qed.

End specification_order.

(** * Further properties of the code *)

(** ** The trait loader *)

Section loader.
Context {platform : Platform}.

Lemma load_row_Some (record : list string) (t : trait string) :
  load_row record = Some t →
  ∃ type name weight image_path,
    record = [type; name; weight; image_path]
    ∧ int weight = Some (rarity_weight t)
    ∧ t = Trait (or_None type) (or_None name) (rarity_weight t)
                (or_None image_path).
Proof.
  destruct record as [|type [|name [|weight [|image_path [|? ?]]]]]; try done.
  cbn. destruct (int weight) as [w|] eqn:Hw; [|done]. cbn. intros [= <-].
  by exists type, name, weight, image_path.
Qed.

Lemma or_None_None (s : string) : or_None s = None ↔ s = "".
Proof. unfold or_None. case_decide; naive_solver. Qed.

Lemma or_None_Some (s s' : string) : or_None s = Some s' ↔ s = s' ∧ s ≠ "".
Proof. unfold or_None. case_decide; naive_solver. Qed.

Lemma load_image_column_Return (file_path : string) (t : trait string)
    (t' : trait Image) :
  load_image_column file_path t = Return t' →
  trait_type t' = trait_type t ∧ trait_name t' = trait_name t
  ∧ rarity_weight t' = rarity_weight t
  ∧ match trait_image t' with
    | None => trait_image t = None
    | Some image =>
        ∃ image_path, trait_image t = Some image_path
          ∧ Image_open (resolve file_path image_path) = Opened image
    end.
Proof.
  unfold load_image_column, _load_trait_image.
  destruct (trait_image t) as [image_path|]; [|by intros [= <-]].
  destruct (Image_open _) as [image| |] eqn:Hopen; [|done..].
  cbn. intros [= <-]. cbn. split_and!; [done..|]. by exists image_path.
Qed.

(** X1.  When [__load_traits] returns a table, the file has a header and at
    least one record, and the table has one row for each record, in the order
    of the file: the record has four fields, an empty type, name or image
    path is read as [None], the weight is what [int] reads, and the image is
    the one opened at the image path resolved against the directory of the
    file. *)
Theorem load_traits_rows (file_path : string) (csv : list (list string))
    (traits : list (trait Image)) :
  __load_traits file_path csv = Return traits →
  ∃ header records,
    csv = header :: records ∧ records ≠ []
    ∧ Forall2 (loaded_from file_path) records traits.
Proof.
  unfold __load_traits. destruct csv as [|header records]; [done|].
  destruct (mapM load_row records) as [rows|] eqn:Hrows; [|done].
  intros Himages. exists header, records. split; [done|].
  assert (mapM (load_image_column file_path) rows = Return traits) as Hload.
  { by destruct rows. }
  split.
  { intros ->. cbn in Hrows. injection Hrows as <-. done. }
  clear Himages. apply mapM_Some in Hrows. apply mapM_Return in Hload.
  revert traits Hload.
  induction Hrows as [|record row records rows Hrow _ IH]; intros traits Hload.
  - inversion Hload. constructor.
  - inversion Hload as [|? t ? traits' Ht Hrest]; subst.
    constructor; [|by apply IH].
    apply load_row_Some in Hrow
      as (type & name & weight & image_path & -> & Hw & Hrow).
    apply load_image_column_Return in Ht as (Hty & Hnm & Hwt & Him).
    exists type, name, weight, image_path.
    rewrite Hty, Hnm, Hwt, Hrow. cbn. split_and!; [done..|].
    rewrite Hrow in Him. cbn in Him.
    destruct (trait_image t) as [image|].
    + destruct Him as (p & [-> Hne]%or_None_Some & Hopen). done.
    + by apply or_None_None.
Qed.

Lemma mapM_None_exists {A B} (f : A → option B) (l : list A) :
  mapM f l = None ↔ ∃ x, x ∈ l ∧ f x = None.
Proof.
  split.
  - intros Hnone. destruct (decide (Forall (λ x, is_Some (f x)) l)) as [Hall|Hex].
    + apply mapM_is_Some in Hall as [k Hk]. congruence.
    + apply not_Forall_Exists in Hex; [|apply _].
      apply Exists_exists in Hex as (x & Hin & Hx).
      exists x. split; [done|]. by apply eq_None_not_Some.
  - intros (x & Hin & Hx). apply eq_None_not_Some. intros Hsome%mapM_is_Some.
    eapply Forall_forall in Hsome; [|done]. unfold compose in Hsome.
    rewrite Hx in Hsome. by destruct Hsome.
Qed.

Lemma load_image_column_Raise (file_path : string) (t : trait string) (e : exn) :
  load_image_column file_path t = Raise e →
  ∃ image_path, trait_image t = Some image_path
    ∧ (Image_open (resolve file_path image_path) = FileNotFoundError
       ∧ e = ClickException
               ("File not found: " ++ resolve file_path image_path)
       ∨ Image_open (resolve file_path image_path) = UnidentifiedImageError
         ∧ e = ClickException
                 ("Invalid image file: " ++ resolve file_path image_path)).
Proof.
  unfold load_image_column, _load_trait_image.
  destruct (trait_image t) as [image_path|]; [|done].
  destruct (Image_open _) as [image| |] eqn:Hopen; cbn; [done|..];
    intros [= <-]; exists image_path; eauto.
Qed.

Lemma mapM_Raise {A B} (f : A → result B) (l : list A) (e : exn) :
  mapM f l = Raise e →
  ∃ k x, l !! k = Some x ∧ f x = Raise e
         ∧ ∀ j y, j < k → l !! j = Some y → ∃ z, f y = Return z.
Proof.
  induction l as [|x l IH]; [done|]. cbn.
  destruct (f x) as [y|e'] eqn:Hx; cbn.
  - destruct (mapM f l) as [k|e'] eqn:Hl; cbn; [done|].
    intros [= ->]. destruct (IH eq_refl) as (k & x' & Hk & Hx' & Hbefore).
    exists (S k), x'. split_and!; [done..|].
    intros [|j] y' Hj; cbn; [intros [= <-]; eauto|].
    apply Hbefore. lia.
  - intros [= ->]. exists 0, x. split_and!; [done..|]. intros j y' Hj. lia.
Qed.

(** X2.  The loader fails with the [ClickException] 'Invalid CSV file:' and
    the path of the file exactly when some record after the header has not
    four fields or has a weight that [int] rejects; the images play no part
    in it: no error of an image hides a malformed record. *)
Theorem load_traits_invalid_csv (file_path : string) (header : list string)
    (records : list (list string)) :
  __load_traits file_path (header :: records)
  = Raise (ClickException ("Invalid CSV file: " ++ file_path))
  ↔ ∃ record, record ∈ records ∧ load_row record = None.
Proof.
  unfold __load_traits. split.
  - destruct (mapM load_row records) as [rows|] eqn:Hrows;
      [|intros _; by apply mapM_None_exists].
    intros Hraise. exfalso.
    destruct rows as [|row rows]; [done|].
    apply mapM_Raise in Hraise as (k & t & _ & Ht & _).
    apply load_image_column_Raise in Ht as (p & _ & [[_ [=]]|[_ [=]]]).
  - intros Hex%mapM_None_exists. by rewrite Hex.
Qed.


End loader.

(** ** Outcome of the weight normaliser *)

Section normalizer_cases.
Context {sorting : ArgSort} {I : Type}.
Implicit Types traits : list (trait I).
Implicit Types groups : list weight_matrix.



(** X5.  The groups that the weight normaliser returns partition the rows of
    the table by trait type: every row position is in exactly one group,
    there is one group for each type of the table, and two rows are in the
    same group exactly when they have the same type. *)
Theorem groups_partition_rows_by_type traits groups :
  __get_normalized_rarity_weight_groups traits = Return groups →
  concat ((λ g : weight_matrix, g.*1) <$> groups) ≡ₚ seq 0 (length traits)
  ∧ length groups = length (first_occurrences (trait_type <$> traits))
  ∧ ∀ k k' (g g' : weight_matrix) i j t t',
      groups !! k = Some g → groups !! k' = Some g' →
      i ∈ g.*1 → j ∈ g'.*1 →
      traits !! i = Some t → traits !! j = Some t' →
      trait_type t = trait_type t' ↔ k = k'.
Proof.
  intros Hgroups. split; [by apply normalized_groups_indexes|].
  destruct (normalized_groups_classes _ _ Hgroups) as (xs & Hperm & ->).
  set (cs := first_occurrences (entry_key <$> xs)).
  assert (NoDup cs) as Hnd by apply NoDup_first_occurrences.
  split.
  - rewrite length_fmap. apply Permutation_length.
    apply NoDup_Permutation; [done|apply NoDup_first_occurrences|].
    intros c. unfold cs. rewrite !elem_of_first_occurrences.
    by rewrite Hperm, entry_key_entries.
  - assert (∀ k (g : weight_matrix) i t,
              ((λ c, _normalize_indexed_rarity_weights
                       (entry_weight <$> filter (λ e, entry_key e = c) xs))
                 <$> cs) !! k = Some g →
              i ∈ g.*1 → traits !! i = Some t →
              cs !! k = Some (trait_type t)) as Hclass.
    { intros k g i t Hk Hi Ht.
      apply list_lookup_fmap_Some in Hk as (c & -> & Hc).
      destruct (normalize_entries (filter (λ e, entry_key e = c) xs))
        as (T & _ & _ & Hnorm).
      rewrite Hnorm, <-list_fmap_compose in Hi.
      apply list_elem_of_fmap in Hi as ([i' t0] & -> & Hin).
      apply list_elem_of_filter in Hin as [Hkey Hin].
      rewrite Hperm in Hin. apply elem_of_entries in Hin. cbn in Ht.
      assert (t0 = t) as -> by congruence. by rewrite <-Hkey in Hc. }
    intros k k' g g' i j t t' Hk Hk' Hi Hj Ht Ht'.
    pose proof (Hclass _ _ _ _ Hk Hi Ht) as Hc.
    pose proof (Hclass _ _ _ _ Hk' Hj Ht') as Hc'.
    split.
    + intros Heq. rewrite Heq in Hc. by eapply NoDup_lookup.
    + intros <-. congruence.
Qed.


End normalizer_cases.

(** ** When a draw returns *)

Lemma sum_of_finite_from (a : Q) (qs : list Q) :
  foldl Float.add (Finite a) (Finite <$> qs) = Finite (foldl Qplus a qs).
Proof. revert a. induction qs as [|q qs IH]; intros a; [done|]. apply IH. Qed.

Lemma sum_of_finite (qs : list Q) :
  Float.sum (Finite <$> qs) = Finite (foldl Qplus 0%Q qs).
Proof. apply sum_of_finite_from. Qed.

Section draws.
Context {generator : BitGenerator}.





End draws.


Section drawable_tables.
Context {sorting : ArgSort} {generator : BitGenerator} {I : Type}.
Implicit Types traits : list (trait I).
Implicit Types groups : list weight_matrix.









End drawable_tables.

(** ** More tokens than combinations *)

#[global] Instance Nprod_Permutation : Proper ((≡ₚ) ==> (=)) Nprod.
Proof. induction 1; simpl; lia. Qed.



Section combinations.
Context {sorting : ArgSort} {generator : BitGenerator} {I : Type}.
Implicit Types traits : list (trait I).
Implicit Types groups : list weight_matrix.







End combinations.

(** ** The rows of the metadata *)

Lemma filter_ext_in {A} (P Q : A → Prop) `{!∀ x, Decision (P x)}
    `{!∀ x, Decision (Q x)} (l : list A) :
  (∀ x, x ∈ l → P x ↔ Q x) → filter P l = filter Q l.
Proof.
  induction l as [|x l IH]; [done|]. intros Hext.
  rewrite !filter_cons. rewrite IH by (intros y Hy; apply Hext; by right).
  destruct (decide (P x)) as [HP|HP], (decide (Q x)) as [HQ|HQ]; try done;
    exfalso; apply (Hext x (list_elem_of_here _ _)) in HP || apply HP;
    try done; by apply (Hext x (list_elem_of_here _ _)).
Qed.

Lemma mapM_Return_fmap {A B} (f : A → result B) (g : A → B) (l : list A) :
  Forall (λ x, f x = Return (g x)) l → mapM f l = Return (g <$> l).
Proof.
  intros Hall. apply mapM_Return. apply Forall2_fmap_r.
  apply Forall_Forall2_diag. exact Hall.
Qed.

Section dict.
Context {K V : Type} `{EqDecision K}.
Implicit Types d items : list (K * V).

Lemma dict_get_setitem d k v k' restval :
  dict_get (dict_setitem d k v) k' restval
  = if decide (k' = k) then v else dict_get d k' restval.
Proof.
  induction d as [|[k0 v0] d IH]; cbn.
  - by destruct (decide (k' = k)).
  - destruct (decide (k = k0)) as [->|Hne]; cbn.
    + by destruct (decide (k' = k0)).
    + destruct (decide (k' = k0)) as [->|Hne'].
      * by rewrite decide_False by done.
      * exact IH.
Qed.

Lemma dict_setitem_present d k v :
  k ∈ d.*1 → (dict_setitem d k v).*1 = d.*1.
Proof.
  induction d as [|[k0 v0] d IH]; cbn; [by intros ?%elem_of_nil|].
  intros Hin. destruct (decide (k = k0)) as [->|Hne]; [done|].
  cbn. f_equal. apply IH. by apply elem_of_cons in Hin as [?|?].
Qed.

Lemma dict_update_cons d k v items :
  dict_update d ((k, v) :: items) = dict_update (dict_setitem d k v) items.
Proof. done. Qed.

Lemma dict_get_update_absent d items k restval :
  k ∉ items.*1 →
  dict_get (dict_update d items) k restval = dict_get d k restval.
Proof.
  revert d. induction items as [|[k0 v0] items IH]; intros d; [done|].
  cbn [fmap list_fmap fst]. intros [Hne Hnotin]%not_elem_of_cons.
  rewrite dict_update_cons, IH by done.
  rewrite dict_get_setitem. by rewrite decide_False.
Qed.

Lemma dict_get_update_present d items k v restval :
  NoDup items.*1 → (k, v) ∈ items →
  dict_get (dict_update d items) k restval = v.
Proof.
  revert d. induction items as [|[k0 v0] items IH]; intros d;
    [by intros _ ?%elem_of_nil|].
  cbn [fmap list_fmap fst]. intros [Hnotin Hnd]%NoDup_cons Hin.
  rewrite dict_update_cons.
  apply elem_of_cons in Hin as [[= -> ->]|Hin].
  - rewrite dict_get_update_absent by done.
    rewrite dict_get_setitem. by rewrite decide_True.
  - by apply IH.
Qed.

Lemma dict_update_keys d items :
  NoDup items.*1 →
  (dict_update d items).*1 = d.*1 ++ filter (λ k, k ∉ d.*1) items.*1.
Proof.
  revert d. induction items as [|[k v] items IH]; intros d.
  - intros _. cbn. by rewrite app_nil_r.
  - cbn [fmap list_fmap fst]. intros [Hnotin Hnd]%NoDup_cons.
    rewrite dict_update_cons, IH by done.
    destruct (decide (k ∈ d.*1)) as [Hin|Hout].
    + rewrite dict_setitem_present by done.
      rewrite filter_cons_False by (intros Hn; by apply Hn). done.
    + rewrite dict_setitem_fresh by done.
      rewrite filter_cons_True by done.
      rewrite fmap_app, <-(assoc_L (++)). cbn. do 2 f_equal.
      apply filter_ext_in. intros k' Hk'. rewrite not_elem_of_app.
      rewrite list_elem_of_singleton. split; [naive_solver|].
      intros Hk. split; [done|]. by intros ->.
Qed.

End dict.

Section metadata.
Context {I : Type}.
Implicit Types token first : list (token_trait I).
Implicit Types token_data : list (list (token_trait I)).

Lemma pairs_keys token :
  ((λ t : token_trait I, (slot_type t, slot_name t)) <$> token).*1
  = slot_type <$> token.
Proof. by rewrite <-list_fmap_compose. Qed.

Lemma rowdict_keys token_name i token :
  NoDup (slot_type <$> token) →
  (rowdict token_name i token).*1
  = Some "Name" :: filter (λ c, c ≠ Some "Name") (slot_type <$> token).
Proof.
  intros Hnd. unfold rowdict.
  rewrite (dict_update_fresh [] _) by (by rewrite app_nil_l, pairs_keys).
  rewrite app_nil_l, dict_update_keys by (by rewrite pairs_keys).
  rewrite pairs_keys. cbn. f_equal. apply list_filter_iff.
  intros c. by rewrite list_elem_of_singleton.
Qed.

Lemma rowdict_get_slot token_name i token (t : token_trait I) restval :
  NoDup (slot_type <$> token) → t ∈ token →
  dict_get (rowdict token_name i token) (slot_type t) restval = slot_name t.
Proof.
  intros Hnd Ht. unfold rowdict.
  rewrite (dict_update_fresh [] _) by (by rewrite app_nil_l, pairs_keys).
  rewrite app_nil_l. apply dict_get_update_present; [by rewrite pairs_keys|].
  apply list_elem_of_fmap. by exists t.
Qed.

Lemma rowdict_get_Name token_name i token restval :
  NoDup (slot_type <$> token) → Some "Name" ∉ slot_type <$> token →
  dict_get (rowdict token_name i token) (Some "Name") restval
  = Some (token_label token_name i).
Proof.
  intros Hnd HName. unfold rowdict.
  rewrite (dict_update_fresh [] _) by (by rewrite app_nil_l, pairs_keys).
  rewrite app_nil_l, dict_get_update_absent by (by rewrite pairs_keys).
  cbn. by rewrite decide_True.
Qed.

(** What [__generate_metadata] returns when every token has one slot of
    each type of the first token. *)
Lemma metadata_of_uniform_tokens token_name first token_data :
  token_data !! 0 = Some first →
  Forall (λ token, NoDup (slot_type <$> token)
                   ∧ slot_type <$> token ≡ₚ slot_type <$> first) token_data →
  let fieldnames :=
    Some "Name" :: filter (λ c, c ≠ Some "Name") (slot_type <$> first) in
  __generate_metadata token_name token_data
  = Return (csv_cell <$> fieldnames,
            imap (λ i token,
                    (λ k, csv_cell (dict_get (rowdict token_name i token) k
                                      (Some ""))) <$> fieldnames)
                 token_data).
Proof.
  intros Hfirst Hall fieldnames. unfold __generate_metadata.
  fold (@rowdict I token_name).
  assert (NoDup (slot_type <$> first)) as Hnd.
  { apply list_elem_of_lookup_2 in Hfirst.
    eapply Forall_forall in Hall as [? _]; done. }
  unfold getitem. rewrite list_lookup_imap, Hfirst. cbn [fmap option_fmap option_map].
  cbn [mbind result_bind]. rewrite rowdict_keys by done. fold fieldnames.
  rewrite (mapM_Return_fmap _
             (λ rowdict, (λ k, csv_cell (dict_get rowdict k (Some "")))
                           <$> fieldnames)).
  - cbn. do 2 f_equal. rewrite fmap_imap. done.
  - apply Forall_forall. intros d (i & Hd)%list_elem_of_lookup_1.
    rewrite list_lookup_imap in Hd.
    destruct (token_data !! i) as [token|] eqn:Htoken; [|done].
    injection Hd as <-. apply list_elem_of_lookup_2 in Htoken.
    eapply Forall_forall in Hall as [Hnd' Hperm]; [|done].
    unfold dict_to_list. rewrite decide_True; [done|].
    apply Forall_forall. intros [k v] Hkv.
    apply (list_elem_of_fmap_2 fst) in Hkv. cbn in Hkv |- *.
    rewrite rowdict_keys in Hkv by done. unfold fieldnames.
    apply elem_of_cons in Hkv as [->|Hkv]; [by left|]. right.
    apply list_elem_of_filter in Hkv as [Hne Hkv].
    apply list_elem_of_filter. split; [done|]. by rewrite <-Hperm.
Qed.

End metadata.

Section generated_metadata.
Context {sorting : ArgSort} {generator : BitGenerator} {I : Type}.
Implicit Types traits : list (trait I).
Implicit Types token_data : list (list (token_trait I)).

(** Every generated token has one slot of each trait type of the table. *)
Lemma generated_token_types fuel traits groups amount r token_data token :
  __get_normalized_rarity_weight_groups traits = Return groups →
  __generate_token_data fuel traits groups amount r
  = Some (Return token_data) →
  token ∈ token_data →
  slot_type <$> token ≡ₚ first_occurrences (trait_type <$> traits).
Proof.
  intros Hgroups Hrun Htoken. unfold __generate_token_data in Hrun.
  destruct (sampling_loop fuel traits groups amount ∅ [] r)
    as [[data|]|] eqn:Hloop; [|done..].
  injection Hrun as <-.
  apply list_elem_of_fmap in Htoken as (rows & -> & Hrows).
  destruct (sampling_loop_inv _ _ _ _ _ _ _ _ Hloop) as (_ & _ & Hfrom).
  { intros names. cbn. rewrite elem_of_nil. set_solver. }
  { constructor. }
  destruct (Hfrom _ Hrows) as [Hnil|(r0 & r1 & Hdraw)];
    [by apply elem_of_nil in Hnil|].
  destruct (token_order _ _ _ _ _ Hgroups Hdraw) as (_ & _ & _ & Hperm & _).
  assert (slot_type <$> map delete_weight rows = trait_type <$> rows) as ->.
  { by rewrite <-list_fmap_compose. }
  done.
Qed.

Lemma generated_length fuel traits groups amount r token_data :
  __generate_token_data fuel traits groups amount r
  = Some (Return token_data) →
  length token_data = amount.
Proof.
  unfold __generate_token_data.
  destruct (sampling_loop fuel traits groups amount ∅ [] r)
    as [[data|]|] eqn:Hloop; [|done..].
  intros [= <-].
  destruct (sampling_loop_inv _ _ _ _ _ _ _ _ Hloop) as (_ & Hlen & _).
  { intros names. cbn. rewrite elem_of_nil. set_solver. }
  { constructor. }
  rewrite length_map. apply Hlen. simpl. lia.
Qed.

Lemma generated_uniform fuel traits groups amount r token_data first :
  __get_normalized_rarity_weight_groups traits = Return groups →
  __generate_token_data fuel traits groups amount r
  = Some (Return token_data) →
  token_data !! 0 = Some first →
  Forall (λ token, NoDup (slot_type <$> token)
                   ∧ slot_type <$> token ≡ₚ slot_type <$> first) token_data.
Proof.
  intros Hgroups Hrun Hfirst. apply Forall_forall. intros token Htoken.
  pose proof (generated_token_types _ _ _ _ _ _ _ Hgroups Hrun Htoken) as Hperm.
  apply list_elem_of_lookup_2 in Hfirst.
  pose proof (generated_token_types _ _ _ _ _ _ _ Hgroups Hrun Hfirst) as Hperm0.
  split.
  - rewrite Hperm. apply NoDup_first_occurrences.
  - by rewrite Hperm, Hperm0.
Qed.

(** X10.  For a generated set of at least one token and a table without a
    type called [Name], [__generate_metadata] returns: the header is [Name]
    and then the types of the first token, there is one row for each token
    in the order of the set, its first cell is the token name with the
    number of the token, and the cell under each type is the name of the
    trait of that type in this token, also when the token holds its types in
    another order than the first token. *)
Theorem metadata_rows_follow_header fuel traits groups amount r token_data
    (token_name : string) :
  __get_normalized_rarity_weight_groups traits = Return groups →
  __generate_token_data fuel traits groups amount r
  = Some (Return token_data) →
  0 < amount →
  Some "Name" ∉ trait_type <$> traits →
  ∃ first header rows,
    token_data !! 0 = Some first
    ∧ __generate_metadata token_name token_data = Return (header, rows)
    ∧ header = "Name" :: (csv_cell <$> (slot_type <$> first))
    ∧ length rows = amount
    ∧ ∀ i token row,
        token_data !! i = Some token → rows !! i = Some row →
        ∃ cells,
          row = token_label token_name i :: cells
          ∧ Forall2 (λ c cell, ∃ t, t ∈ token ∧ slot_type t = c
                                    ∧ cell = csv_cell (slot_name t))
                    (slot_type <$> first) cells.
Proof.
  intros Hgroups Hrun Hamount HName.
  pose proof (generated_length _ _ _ _ _ _ Hrun) as Hlen.
  destruct token_data as [|first rest] eqn:Hdata; [simpl in Hlen; lia|].
  rewrite <-Hdata in *.
  assert (token_data !! 0 = Some first) as Hfirst by (by rewrite Hdata).
  clear Hdata rest.
  pose proof (generated_uniform _ _ _ _ _ _ _ Hgroups Hrun Hfirst) as Hall.
  assert (∀ token, token ∈ token_data → Some "Name" ∉ slot_type <$> token)
    as HName'.
  { intros token Htoken.
    rewrite (generated_token_types _ _ _ _ _ _ _ Hgroups Hrun Htoken).
    by rewrite elem_of_first_occurrences. }
  assert (filter (λ c, c ≠ Some "Name") (slot_type <$> first)
          = slot_type <$> first) as Hfilter.
  { apply filter_all, Forall_forall. intros c Hc ->.
    apply (HName' first); [by eapply list_elem_of_lookup_2|done]. }
  eexists first, _, _. split; [done|].
  split; [by apply metadata_of_uniform_tokens|].
  rewrite Hfilter. split_and!; [done|by rewrite length_imap|].
  intros i token row Htoken Hrow.
  rewrite list_lookup_imap, Htoken in Hrow. injection Hrow as <-.
  pose proof (list_elem_of_lookup_2 _ _ _ Htoken) as Hin.
  eapply Forall_forall in Hall as [Hnd Hperm]; [|exact Hin].
  eexists. split.
  - cbn [fmap list_fmap]. f_equal.
    by rewrite rowdict_get_Name by (done || by apply HName').
  - apply Forall2_fmap_r, Forall_Forall2_diag, Forall_forall.
    intros c Hc. rewrite <-Hperm in Hc.
    apply list_elem_of_fmap in Hc as (t & -> & Ht).
    exists t. split_and!; [done..|]. by rewrite rowdict_get_slot.
Qed.

(** X11.  When the table has a trait type called [Name], the metadata has no
    column for the token names: the header has as many columns as there are
    types, [Name] first, and the first cell of every row is the name of the
    trait of the type [Name] in that token, not the token name with its
    number. *)
Theorem metadata_type_called_Name fuel traits groups amount r token_data
    (token_name : string) :
  __get_normalized_rarity_weight_groups traits = Return groups →
  __generate_token_data fuel traits groups amount r
  = Some (Return token_data) →
  0 < amount →
  Some "Name" ∈ trait_type <$> traits →
  ∃ first header rows,
    token_data !! 0 = Some first
    ∧ __generate_metadata token_name token_data = Return (header, rows)
    ∧ header = "Name" :: (csv_cell <$> filter (λ c, c ≠ Some "Name")
                                              (slot_type <$> first))
    ∧ length header = length first
    ∧ ∀ i token row,
        token_data !! i = Some token → rows !! i = Some row →
        ∃ t, t ∈ token ∧ slot_type t = Some "Name"
             ∧ head row = Some (csv_cell (slot_name t)).
Proof.
  intros Hgroups Hrun Hamount HName.
  pose proof (generated_length _ _ _ _ _ _ Hrun) as Hlen.
  destruct token_data as [|first rest] eqn:Hdata; [simpl in Hlen; lia|].
  rewrite <-Hdata in *.
  assert (token_data !! 0 = Some first) as Hfirst by (by rewrite Hdata).
  clear Hdata rest.
  pose proof (generated_uniform _ _ _ _ _ _ _ Hgroups Hrun Hfirst) as Hall.
  assert (∀ token, token ∈ token_data → Some "Name" ∈ slot_type <$> token)
    as HName'.
  { intros token Htoken.
    rewrite (generated_token_types _ _ _ _ _ _ _ Hgroups Hrun Htoken).
    by rewrite elem_of_first_occurrences. }
  eexists first, _, _. split; [done|].
  split; [by apply metadata_of_uniform_tokens|].
  split_and!; [done| |].
  - cbn. rewrite length_fmap.
    pose proof (list_elem_of_lookup_2 _ _ _ Hfirst) as Hin.
    eapply Forall_forall in Hall as [Hnd _]; [|exact Hin].
    specialize (HName' _ Hin).
    rewrite <-(length_fmap slot_type first).
    revert Hnd HName'. generalize (slot_type <$> first). clear.
    intros cs Hnd Hin.
    apply list_elem_of_split in Hin as (l1 & l2 & ->).
    apply NoDup_app in Hnd as (_ & Hdisj & [Hnotin _]%NoDup_cons).
    rewrite filter_app, filter_cons_False by (intros Hn; by apply Hn).
    rewrite !filter_all.
    + rewrite !length_app. simpl. lia.
    + apply Forall_forall. by intros c Hc ->.
    + apply Forall_forall. intros c Hc ->. apply (Hdisj _ Hc). by left.
  - intros i token row Htoken Hrow.
    rewrite list_lookup_imap, Htoken in Hrow. injection Hrow as <-.
    pose proof (list_elem_of_lookup_2 _ _ _ Htoken) as Hin.
    eapply Forall_forall in Hall as [Hnd Hperm]; [|exact Hin].
    specialize (HName' _ Hin).
    apply list_elem_of_fmap in HName' as (t & Ht & Htin).
    exists t. split_and!; [done..|]. cbn. do 2 f_equal.
    rewrite Ht. by apply rowdict_get_slot.
Qed.

End generated_metadata.

(** ** [np.unique] *)

#[global] Instance row_le_refl : Reflexive row_le.
Proof. intros a. unfold row_le. by rewrite decide_True. Qed.

#[global] Instance row_le_trans : Transitive row_le.
Proof.
  intros [a1 a2] [b1 b2] [c1 c2]. unfold row_le. cbn.
  repeat case_decide; subst; try done.
  - by etrans.
  - intros Hab Hbc. exfalso.
    match goal with Hne : _ ≠ _ |- _ => apply Hne end.
    by apply (anti_symm String.le).
  - by etrans.
Qed.

#[global] Instance row_le_anti_symm : AntiSymm (=) row_le.
Proof.
  intros [a1 a2] [b1 b2]. unfold row_le. cbn.
  repeat case_decide; subst; try done.
  - intros Hab Hba. f_equal. by apply (anti_symm String.le).
  - intros Hab Hba. exfalso.
    match goal with Hne : _ ≠ _ |- _ => apply Hne end.
    by apply (anti_symm String.le).
Qed.

#[global] Instance row_le_po : PartialOrder row_le.
Proof. repeat split; apply _. Qed.

#[global] Instance row_le_total : Total row_le.
Proof.
  intros [a1 a2] [b1 b2]. unfold row_le. cbn.
  repeat case_decide; subst; try done; apply (total String.le).
Qed.

Section unique.
Context {A : Type} `{EqDecision A} (le : relation A) `{!RelDecision le}.
Context `{!PartialOrder le} `{!Total le}.
Implicit Types ar l : list A.

Lemma StronglySorted_remove_dups l :
  StronglySorted le l → StronglySorted le (remove_dups l).
Proof.
  induction 1 as [|x l Hs IH Hall]; [constructor|]. cbn.
  destruct (decide_rel elem_of x l); [done|]. constructor; [done|].
  apply Forall_forall. intros y Hy.
  apply (proj1 (elem_of_remove_dups _ _)) in Hy.
  by eapply Forall_forall in Hall.
Qed.

Lemma StronglySorted_NoDup_strict l :
  StronglySorted le l → NoDup l →
  StronglySorted (λ a b, le a b ∧ a ≠ b) l.
Proof.
  induction 1 as [|x l Hs IH Hall]; [constructor|].
  intros [Hx Hnd]%NoDup_cons. constructor; [by apply IH|].
  apply Forall_forall. intros y Hy. split.
  - by eapply Forall_forall in Hall.
  - by intros ->.
Qed.

Lemma count_sum_NoDup ar l :
  NoDup l → (∀ x, x ∈ ar → x ∈ l) →
  sum_list ((λ u, length (filter (u =.) ar)) <$> l) = length ar.
Proof.
  intros Hnd. induction ar as [|x ar IH]; intros Hin.
  - clear. induction l as [|u l IH]; [done|].
    rewrite fmap_cons. cbn [sum_list_with]. by rewrite IH.
  - cbn [length]. rewrite <-IH by (intros y Hy; apply Hin; by right).
    assert (x ∈ l) as Hx by (apply Hin; by left). clear IH Hin.
    induction Hnd as [|u l Hu Hnd IH]; [by apply elem_of_nil in Hx|].
    cbn [fmap list_fmap sum_list_with].
    destruct (decide (u = x)) as [->|Hne].
    + rewrite filter_cons_True by done. cbn [length id].
      assert (∀ l', x ∉ l' →
                sum_list ((λ u, length (filter (u =.) (x :: ar))) <$> l')
                = sum_list ((λ u, length (filter (u =.) ar)) <$> l')) as ->.
      { clear. induction l' as [|u l' IH]; [done|].
        intros [Hne Hnotin]%not_elem_of_cons.
        rewrite !fmap_cons. cbn [sum_list_with].
        rewrite filter_cons_False by (by intros ->). by rewrite IH. }
      * lia.
      * done.
    + rewrite filter_cons_False by done.
      apply elem_of_cons in Hx as [->|Hx]; [done|].
      rewrite IH by done. unfold id. lia.
Qed.

(** What [np.unique] returns: the distinct values of the array in strictly
    ascending order, how often each occurs, and positions from which the
    counts of the elements of the array are read. *)
Lemma np_unique_spec ar :
  ∃ unique inverse counts,
    np_unique le ar = (unique, inverse, counts)
    ∧ StronglySorted (λ a b, le a b ∧ a ≠ b) unique
    ∧ (∀ x, x ∈ unique ↔ x ∈ ar)
    ∧ counts = (λ u, length (filter (u =.) ar)) <$> unique
    ∧ mapM (getitem counts) inverse
      = Return ((λ x, length (filter (x =.) ar)) <$> ar)
    ∧ sum_list counts = length ar.
Proof.
  unfold np_unique. set (unique := remove_dups (merge_sort le ar)).
  assert (∀ x, x ∈ unique ↔ x ∈ ar) as Helem.
  { intros x. unfold unique.
    by rewrite elem_of_remove_dups, merge_sort_Permutation. }
  assert (NoDup unique) as Hnd by apply NoDup_remove_dups.
  eexists _, _, _. split; [done|]. split_and!; [|done|done| |].
  - apply StronglySorted_NoDup_strict; [|done].
    apply StronglySorted_remove_dups, StronglySorted_merge_sort; apply _.
  - apply mapM_Return. apply Forall2_fmap_l, Forall2_fmap_r.
    apply Forall_Forall2_diag, Forall_forall. intros x Hx.
    destruct (list_find_elem_of (x =.) unique x) as [[i y] Hfind];
      [by apply Helem|done|].
    unfold compose. rewrite Hfind. cbn.
    apply list_find_Some in Hfind as (Hi & <- & _).
    apply getitem_Return. by rewrite list_lookup_fmap, Hi.
  - apply count_sum_NoDup; [done|]. intros x. apply Helem.
Qed.

End unique.

(** ** Frequencies of the traits *)

Lemma fmap_concat {A B} (f : A → B) (ls : list (list A)) :
  f <$> concat ls = concat ((λ l : list A, f <$> l) <$> ls).
Proof.
  induction ls as [|l ls IH]; [done|]. cbn. by rewrite fmap_app, IH.
Qed.

Lemma length_concat_uniform {A} (m : nat) (ls : list (list A)) :
  Forall (λ l, length l = m) ls → length (concat ls) = length ls * m.
Proof.
  induction 1 as [|l ls Hl _ IH]; [done|].
  cbn. rewrite length_app, IH, Hl. done.
Qed.

Lemma sections_of_concat {A} (m : nat) (ls : list (list A)) :
  Forall (λ l, length l = m) ls → sections_of m (length ls) (concat ls) = ls.
Proof.
  induction 1 as [|l ls Hl _ IH]; [done|]. cbn.
  rewrite take_app_length', drop_app_length' by done. by rewrite IH.
Qed.

(** Splitting the concatenation of rows of one length gives back the
    rows. *)
Lemma np_split_equal_concat {A} (m : nat) (ls : list (list A)) :
  ls ≠ [] → Forall (λ l, length l = m) ls →
  np_split_equal (concat ls) (length ls) = Return ls.
Proof.
  intros Hne Hall. unfold np_split_equal.
  rewrite decide_False by (by destruct ls).
  rewrite (length_concat_uniform m) by done.
  rewrite decide_False.
  - rewrite Nat.mul_comm, Nat.div_mul by (by destruct ls).
    by rewrite sections_of_concat.
  - intros Hn. apply Hn. rewrite Nat.mul_comm. apply Nat.Div0.mod_mul.
Qed.

Lemma length_filter_fmap {A B} (f : A → B) (P : B → Prop)
    `{!∀ y, Decision (P y)} (l : list A) :
  length (filter P (f <$> l)) = length (filter (λ x, P (f x)) l).
Proof.
  induction l as [|x l IH]; [done|]. cbn [fmap list_fmap].
  rewrite !filter_cons. destruct (decide (P (f x))); cbn; by rewrite IH.
Qed.

Section trait_frequencies.
Context {I : Type}.
Implicit Types token : list (token_trait I).
Implicit Types token_data : list (list (token_trait I)).

Lemma written_strings token_data :
  (λ t : option string * option string, (astype_U t.1, astype_U t.2))
    <$> concat (map (λ t : token_trait I, (slot_type t, slot_name t))
                  <$> token_data)
  = slot_strings <$> concat token_data.
Proof.
  rewrite !fmap_concat, <-!list_fmap_compose. f_equal.
  apply list_fmap_ext. intros i token _. cbn.
  by rewrite <-list_fmap_compose.
Qed.

Lemma count_of_slot token_data (t : token_trait I) :
  length (filter (slot_strings t =.) (slot_strings <$> concat token_data))
  = counted_trait_frequency token_data t.
Proof.
  rewrite length_filter_fmap. unfold counted_trait_frequency. f_equal.
  apply list_filter_iff. intros t'. naive_solver.
Qed.

Lemma trait_frequencies_returns token_data (m : nat) :
  token_data ≠ [] → Forall (λ token, length token = m) token_data →
  ∃ table,
    __generate_trait_frequencies token_data
    = Return (table,
              (λ token, counted_trait_frequency token_data <$> token)
                <$> token_data).
Proof.
  intros Hne Hall. unfold __generate_trait_frequencies.
  destruct token_data as [|token0 rest] eqn:Hdata; [done|].
  rewrite <-Hdata in *. clear Hdata token0 rest.
  rewrite written_strings.
  destruct (np_unique_spec row_le (slot_strings <$> concat token_data))
    as (unique & inverse & counts & -> & _ & _ & _ & -> & _).
  cbn [mbind result_bind].
  assert ((λ x, length (filter (x =.) (slot_strings <$> concat token_data)))
            <$> (slot_strings <$> concat token_data)
          = concat ((λ token, counted_trait_frequency token_data <$> token)
                      <$> token_data)) as ->.
  { rewrite <-list_fmap_compose, fmap_concat.
    f_equal. apply list_fmap_ext. intros i token _. cbn.
    apply list_fmap_ext. intros j t _. apply count_of_slot. }
  rewrite <-(length_fmap (λ token, counted_trait_frequency token_data <$> token)
               token_data).
  rewrite (np_split_equal_concat m).
  - cbn. eauto.
  - by destruct token_data.
  - apply Forall_fmap. eapply Forall_impl; [exact Hall|].
    intros token Hlen. cbn. by rewrite length_fmap.
Qed.

(** X12.  For a set of tokens that is not empty (every token having the same
    number of slots), [__generate_trait_frequencies] returns, in the shape of
    the set, for every slot the number of slots of the whole set whose type
    and name are written the same by [astype('U')]; an absent slot is counted
    like any other, under the string that stands for [None].  Every such
    frequency is at least one. *)
Theorem trait_frequencies_count_all_slots token_data (m : nat) :
  token_data ≠ [] → Forall (λ token, length token = m) token_data →
  ∃ table,
    __generate_trait_frequencies token_data
    = Return (table,
              (λ token, counted_trait_frequency token_data <$> token)
                <$> token_data)
    ∧ ∀ token t, token ∈ token_data → t ∈ token →
        0 < counted_trait_frequency token_data t.
Proof.
  intros Hne Hall.
  destruct (trait_frequencies_returns token_data m Hne Hall) as (table & Heq).
  exists table. split; [done|].
  intros token t Htoken Ht. unfold counted_trait_frequency.
  assert (t ∈ filter (λ t', slot_strings t' = slot_strings t)
                     (concat token_data)) as Hin.
  { apply list_elem_of_filter. split; [done|].
    apply elem_of_concat. eauto. }
  destruct (filter _ _); [by apply elem_of_nil in Hin|simpl; lia].
Qed.

(** X13.  The rows that [__generate_trait_frequencies] writes to
    [trait_frequencies.csv] are the written (type, name) pairs of the slots,
    each once, in strictly ascending order of type and then name, each with
    the number of slots that are written so; the frequencies of the table
    add up to the number of slots of the set. *)
Theorem trait_frequency_table token_data table frequencies :
  __generate_trait_frequencies token_data = Return (table, frequencies) →
  StronglySorted (λ a b, row_le a b ∧ a ≠ b) table.*1
  ∧ (∀ type name f,
       (type, name, f) ∈ table
       ↔ 0 < f
         ∧ f = length (filter (λ t, slot_strings t = (type, name))
                              (concat token_data)))
  ∧ sum_list table.*2 = length (concat token_data).
Proof.
  unfold __generate_trait_frequencies.
  destruct token_data as [|token0 rest] eqn:Hdata; [done|].
  rewrite <-Hdata in *. clear Hdata token0 rest.
  rewrite written_strings.
  destruct (np_unique_spec row_le (slot_strings <$> concat token_data))
    as (unique & inverse & counts & -> & Hsorted & Helem & Hcounts & -> & Hsum).
  cbn [mbind result_bind].
  destruct (np_split_equal _ _) as [split|]; [|done]. cbn.
  intros [= <- _].
  assert (length counts = length unique) as Hlen.
  { by rewrite Hcounts, length_fmap. }
  rewrite fst_zip, snd_zip by lia.
  split_and!; [done| |by rewrite Hsum, length_fmap].
  intros type name f. rewrite Hcounts.
  assert (∀ x : string * string,
            length (filter (x =.) (slot_strings <$> concat token_data))
            = length (filter (λ t, slot_strings t = x) (concat token_data)))
    as Hcount.
  { intros x. rewrite length_filter_fmap. f_equal.
    apply list_filter_iff. intros t'. naive_solver. }
  split.
  - intros (i & Hi)%list_elem_of_lookup_1.
    apply lookup_zip_with_Some in Hi as (x & n & [= <- <-] & Hx & Hn).
    rewrite list_lookup_fmap, Hx in Hn. injection Hn as <-.
    rewrite Hcount. split; [|done].
    apply list_elem_of_lookup_2, Helem in Hx.
    apply list_elem_of_fmap in Hx as (t & Ht & Hin).
    assert (t ∈ filter (λ t, slot_strings t = (type, name))
                       (concat token_data)) as Hin'.
    { by apply list_elem_of_filter. }
    destruct (filter _ _); [by apply elem_of_nil in Hin'|simpl; lia].
  - intros [Hpos ->].
    assert ((type, name) ∈ unique) as (i & Hi)%list_elem_of_lookup_1.
    { apply Helem.
      destruct (filter (λ t, slot_strings t = (type, name))
                  (concat token_data)) as [|t l] eqn:Hfilter;
        [simpl in Hpos; lia|].
      assert (t ∈ t :: l) as Hin by left. rewrite <-Hfilter in Hin.
      apply list_elem_of_filter in Hin as [<- Hin].
      by apply list_elem_of_fmap_2. }
    apply list_elem_of_lookup. exists i.
    apply lookup_zip_with_Some. eexists _, _. split_and!; [|exact Hi|].
    + done.
    + rewrite list_lookup_fmap, Hi. cbn. by rewrite Hcount.
Qed.

End trait_frequencies.

(** ** Frequencies of the trait counts *)

Section trait_count_frequencies.
Context {I : Type}.
Implicit Types token : list (token_trait I).
Implicit Types token_data : list (list (token_trait I)).

Lemma count_of_token token_data token :
  length (filter (count_nonzero token =.) (count_nonzero <$> token_data))
  = counted_count_frequency token_data token.
Proof.
  rewrite length_filter_fmap. unfold counted_count_frequency. f_equal.
  apply list_filter_iff. intros t'. naive_solver.
Qed.

Lemma trait_count_frequencies_returns token_data :
  ∃ table,
    __generate_trait_count_frequencies token_data
    = Return (table, counted_count_frequency token_data <$> token_data).
Proof.
  unfold __generate_trait_count_frequencies.
  destruct (np_unique_spec (≤) (count_nonzero <$> token_data))
    as (unique & inverse & counts & -> & _ & _ & _ & -> & _).
  cbn [mbind result_bind]. eexists. do 2 f_equal.
  rewrite <-list_fmap_compose.
  apply list_fmap_ext. intros i token _. apply count_of_token.
Qed.

(** X14.  [__generate_trait_count_frequencies] never raises: it returns for
    every token the number of tokens of the set that have as many truthy
    names, and the rows it writes to [trait_count_frequencies.csv] are the
    counts that occur, in strictly ascending order, each with the number of
    tokens of that count; these numbers add up to the number of tokens. *)
Theorem trait_count_frequencies_of_tokens token_data :
  ∃ table,
    __generate_trait_count_frequencies token_data
    = Return (table, counted_count_frequency token_data <$> token_data)
    ∧ StronglySorted lt table.*1
    ∧ (∀ c f,
         (c, f) ∈ table
         ↔ 0 < f
           ∧ f = length (filter (λ token, count_nonzero token = c) token_data))
    ∧ sum_list table.*2 = length token_data.
Proof.
  unfold __generate_trait_count_frequencies.
  destruct (np_unique_spec (≤) (count_nonzero <$> token_data))
    as (unique & inverse & counts & -> & Hsorted & Helem & Hcounts & -> & Hsum).
  cbn [mbind result_bind].
  assert (length counts = length unique) as Hlen.
  { by rewrite Hcounts, length_fmap. }
  eexists. split_and!.
  - do 2 f_equal. rewrite <-list_fmap_compose.
    apply list_fmap_ext. intros i token _. apply count_of_token.
  - rewrite fst_zip by lia.
    eapply StronglySorted_impl_elem; [|exact Hsorted].
    intros a b _ _ [? ?]. lia.
  - intros c f. rewrite Hcounts.
    assert (∀ x : nat,
              length (filter (x =.) (count_nonzero <$> token_data))
              = length (filter (λ token, count_nonzero token = x) token_data))
      as Hcount.
    { intros x. rewrite length_filter_fmap. f_equal.
      apply list_filter_iff. intros t'. naive_solver. }
    split.
    + intros (i & Hi)%list_elem_of_lookup_1.
      apply lookup_zip_with_Some in Hi as (x & n & [= <- <-] & Hx & Hn).
      rewrite list_lookup_fmap, Hx in Hn. injection Hn as <-.
      rewrite Hcount. split; [|done].
      apply list_elem_of_lookup_2, Helem in Hx.
      apply list_elem_of_fmap in Hx as (t & Ht & Hin).
      assert (t ∈ filter (λ token, count_nonzero token = c) token_data) as Hin'.
      { by apply list_elem_of_filter. }
      destruct (filter _ _); [by apply elem_of_nil in Hin'|simpl; lia].
    + intros [Hpos ->].
      assert (c ∈ unique) as (i & Hi)%list_elem_of_lookup_1.
      { apply Helem.
        destruct (filter (λ token, count_nonzero token = c) token_data)
          as [|t l] eqn:Hfilter; [simpl in Hpos; lia|].
        assert (t ∈ t :: l) as Hin by left. rewrite <-Hfilter in Hin.
        apply list_elem_of_filter in Hin as [<- Hin].
        by apply list_elem_of_fmap_2. }
      apply list_elem_of_lookup. exists i.
      apply lookup_zip_with_Some. eexists _, _. split_and!; [|exact Hi|].
      * done.
      * rewrite list_lookup_fmap, Hi. cbn. by rewrite Hcount.
  - rewrite snd_zip by lia. by rewrite Hsum, length_fmap.
Qed.

End trait_count_frequencies.

(** ** Rarity scores *)

Lemma foldl_Qplus_proper (a b : Q) (qs : list Q) :
  (a == b)%Q → (foldl Qplus a qs == foldl Qplus b qs)%Q.
Proof.
  revert a b. induction qs as [|q qs IH]; intros a b Hab; simpl; [done|].
  apply IH. by rewrite Hab.
Qed.

Lemma foldl_Qplus_foldr (a : Q) (qs : list Q) :
  (foldl Qplus a qs == a + foldr Qplus 0 qs)%Q.
Proof.
  revert a. induction qs as [|q qs IH]; intros a; simpl; [ring|].
  rewrite IH. ring.
Qed.

Lemma foldr_Qplus_nonneg (qs : list Q) :
  Forall (λ q, 0 < q)%Q qs → (0 <= foldr Qplus 0 qs)%Q.
Proof.
  induction 1 as [|q qs Hq _ IH]; simpl; [done|].
  apply (Qle_trans _ (0 + 0)); [done|].
  apply Qplus_le_compat; [|done]. by apply Qlt_le_weak.
Qed.

Lemma quotient_of_counts_positive (n f : nat) :
  0 < n → 0 < f →
  (0 < inject_Z (Z.of_nat n) / inject_Z (Z.of_nat f))%Q.
Proof.
  intros Hn Hf. apply Qlt_shift_div_l.
  - change 0%Q with (inject_Z 0). rewrite <-Zlt_Qlt. lia.
  - rewrite Qmult_0_l. change 0%Q with (inject_Z 0). rewrite <-Zlt_Qlt. lia.
Qed.

Lemma rarity_score_finite (n : nat) (x : list nat) (c : nat) :
  Forall (λ f, 0 < f) x → 0 < c →
  rarity_score n (x ++ [c])
  = Finite (foldl Qplus 0%Q
              ((λ f, inject_Z (Z.of_nat n) / inject_Z (Z.of_nat f))%Q
                 <$> (x ++ [c]))).
Proof.
  intros Hx Hc. unfold rarity_score.
  rewrite <-sum_of_finite, <-list_fmap_compose. f_equal.
  apply Forall_fmap_ext_1. apply Forall_app. split.
  - eapply Forall_impl; [exact Hx|]. intros f Hf. cbn beta in Hf. cbn.
    apply div_by_nonzero. change 0%Q with (inject_Z 0).
    rewrite inject_Z_injective. lia.
  - repeat constructor. cbn.
    apply div_by_nonzero. change 0%Q with (inject_Z 0).
    rewrite inject_Z_injective. lia.
Qed.

Lemma zip_with_fmap_diag {A B C D} (f : B → C → D) (g : A → B) (h : A → C)
    (l : list A) :
  zip_with f (g <$> l) (h <$> l) = (λ x, f (g x) (h x)) <$> l.
Proof. induction l as [|x l IH]; [done|]. cbn. by rewrite IH. Qed.

Section rarities.
Context {I : Type}.
Implicit Types token : list (token_trait I).
Implicit Types token_data : list (list (token_trait I)).

Lemma counted_count_frequency_positive token_data token :
  token ∈ token_data → 0 < counted_count_frequency token_data token.
Proof.
  intros Htoken. unfold counted_count_frequency.
  assert (token ∈ filter (λ token', count_nonzero token' = count_nonzero token)
                         token_data) as Hin.
  { by apply list_elem_of_filter. }
  destruct (filter _ _); [by apply elem_of_nil in Hin|simpl; lia].
Qed.

Lemma counted_trait_frequency_positive token_data token (t : token_trait I) :
  token ∈ token_data → t ∈ token →
  0 < counted_trait_frequency token_data t.
Proof.
  intros Htoken Ht. unfold counted_trait_frequency.
  assert (t ∈ filter (λ t', slot_strings t' = slot_strings t)
                     (concat token_data)) as Hin.
  { apply list_elem_of_filter. split; [done|].
    apply elem_of_concat. eauto. }
  destruct (filter _ _); [by apply elem_of_nil in Hin|simpl; lia].
Qed.

(** The statistics of a rectangular set of tokens. *)
Lemma statistics_returns (token_name : string) token_data (m : nat) :
  token_data ≠ [] → Forall (λ token, length token = m) token_data →
  ∃ trait_table count_table,
    __generate_statistics token_name token_data
    = Return (Statistics trait_table count_table
        (zip (token_label token_name <$> seq 0 (length token_data))
             ((λ token,
                 rarity_score (length token_data)
                   ((counted_trait_frequency token_data <$> token)
                    ++ [counted_count_frequency token_data token]))
                <$> token_data))).
Proof.
  intros Hne Hall. unfold __generate_statistics.
  destruct (trait_frequencies_returns token_data m Hne Hall)
    as (trait_table & ->).
  destruct (trait_count_frequencies_returns token_data)
    as (count_table & ->).
  cbn [mbind result_bind]. unfold __generate_rarities.
  rewrite decide_False by (rewrite !length_fmap; intros Hn; by apply Hn).
  rewrite zip_with_fmap_diag, length_fmap.
  cbn [mbind result_bind]. rewrite <-list_fmap_compose. eauto.
Qed.

(** X15.  For a set of tokens that is not empty (every token having the same
    number of slots), [__generate_statistics] returns; the rows of
    [rarity_scores.csv] are named after the tokens in the order of the set,
    and the rarity score of a token is a finite positive number, in exact
    arithmetic the sum over all its slots (absent ones included) of the
    amount divided by the frequency of the slot, plus the amount divided by
    the frequency of its count of truthy names.  No division by zero
    occurs. *)
Theorem rarity_scores_count_all_slots (token_name : string) token_data
    (m : nat) :
  token_data ≠ [] → Forall (λ token, length token = m) token_data →
  ∃ stats,
    __generate_statistics token_name token_data = Return stats
    ∧ (rarity_scores_csv stats).*1
      = token_label token_name <$> seq 0 (length token_data)
    ∧ Forall2 (λ token score,
                 ∃ q, score = Finite q
                      ∧ (q == counted_rarity_score token_data token)%Q
                      ∧ (0 < q)%Q)
              token_data (rarity_scores_csv stats).*2.
Proof.
  intros Hne Hall.
  destruct (statistics_returns token_name token_data m Hne Hall)
    as (trait_table & count_table & ->).
  eexists. split; [done|]. cbn [rarity_scores_csv].
  rewrite fst_zip, snd_zip by (by rewrite !length_fmap, length_seq).
  split; [done|].
  apply Forall2_fmap_r, Forall_Forall2_diag, Forall_forall.
  intros token Htoken.
  assert (0 < length token_data) as Hlen by (destruct token_data; simpl; [done|lia]).
  unfold compose. rewrite rarity_score_finite.
  - eexists. split; [done|].
    rewrite fmap_app, foldl_app. cbn [fmap list_fmap foldl].
    rewrite foldl_Qplus_foldr, Qplus_0_l.
    assert ((foldr Qplus 0
               ((λ f, inject_Z (Z.of_nat (length token_data))
                      / inject_Z (Z.of_nat f))
                  <$> (counted_trait_frequency token_data <$> token))
             + inject_Z (Z.of_nat (length token_data))
               / inject_Z (Z.of_nat (counted_count_frequency token_data token))
             == counted_rarity_score token_data token)%Q) as Heq.
    { unfold counted_rarity_score. by rewrite <-list_fmap_compose. }
    split; [exact Heq|].
    apply (Qlt_le_trans _ (0 + inject_Z (Z.of_nat (length token_data))
               / inject_Z (Z.of_nat (counted_count_frequency token_data token)))).
    + rewrite Qplus_0_l. apply quotient_of_counts_positive; [done|].
      by apply counted_count_frequency_positive.
    + apply Qplus_le_compat; [|apply Qle_refl].
      apply foldr_Qplus_nonneg, Forall_fmap, Forall_fmap, Forall_forall.
      intros t Ht. cbn. apply quotient_of_counts_positive; [done|].
      by eapply counted_trait_frequency_positive.
  - apply Forall_fmap, Forall_forall. intros t Ht. cbn.
    by eapply counted_trait_frequency_positive.
  - by apply counted_count_frequency_positive.
Qed.

End rarities.

(** ** The composite of the layers *)



Section images.
Context {platform : Platform}.

Lemma foldl_Raise {A B} (f : A → B → result A) (e : exn) (l : list B) :
  foldl (λ acc x, a ← acc; f a x) (Raise e) l = Raise e.
Proof. induction l as [|x l IH]; [done|]. exact IH. Qed.

Lemma reduce_from (acc : option Image) (rest : list (option Image)) :
  foldl (λ acc second, a ← acc; __combine_images a second) (Return acc) rest
  = match acc, omap id rest with
    | None, [] => Return None
    | None, first :: layers | Some first, layers =>
        im ← composite first layers; Return (Some im)
    end.
Proof.
  revert acc. induction rest as [|[second|] rest IH]; intros acc.
  - by destruct acc.
  - destruct acc as [a|]; cbn [foldl omap list_omap id].
    + cbn [__combine_images mbind result_bind]. unfold composite.
      cbn [foldl mbind result_bind].
      destruct (alpha_composite a second) as [c|e]; cbn [mbind result_bind].
      * by rewrite IH.
      * by rewrite !foldl_Raise.
    + cbn [__combine_images mbind result_bind]. by rewrite IH.
  - destruct acc as [a|]; cbn [foldl omap list_omap id];
      cbn [__combine_images mbind result_bind]; by rewrite IH.
Qed.

(** X16.  [reduce(__combine_images, trait_images)] composes the images that
    are present, from the first to the last, with [Image.alpha_composite];
    absent images are skipped.  With no image present the result is [None];
    for a token without slots [reduce] raises a [TypeError]. *)
Theorem composite_skips_absent_layers (trait_images : list (option Image)) :
  reduce_images trait_images
  = match omap id trait_images with
    | [] => if decide (trait_images = []) then Raise TypeError
            else Return None
    | first :: layers => im ← composite first layers; Return (Some im)
    end.
Proof.
  destruct trait_images as [|first rest]; [done|].
  unfold reduce_images. rewrite reduce_from.
  destruct first as [a|]; cbn [omap list_omap id]; [done|].
  by destruct (omap id rest).
Qed.

Lemma save_images_Return (token_name : string) (pos : nat)
    (token_data_images : list (list (option Image)))
    (saved : list (string * Image)) :
  save_images token_name pos token_data_images = Return saved
  ↔ saved.*1 = (λ i, token_label token_name i +:+ ".png")
                 <$> seq pos (length token_data_images)
    ∧ Forall2 (λ trait_images image,
                 reduce_images trait_images = Return (Some image))
              token_data_images saved.*2.
Proof.
  revert pos saved.
  induction token_data_images as [|trait_images rest IH]; intros pos saved.
  - cbn. split.
    + intros [= <-]. split; [done|constructor].
    + intros [_ Hall]. destruct saved; [done|]. inversion Hall.
  - cbn [save_images length seq fmap list_fmap]. split.
    + destruct (reduce_images trait_images) as [[image|]|] eqn:Himage;
        cbn [mbind result_bind]; [|done..].
      destruct (save_images token_name (S pos) rest) as [saved'|] eqn:Hrest;
        cbn [mbind result_bind]; [|done].
      intros [= <-]. apply IH in Hrest as [Hnames Himages].
      cbn. rewrite Hnames. split; [done|]. by constructor.
    + intros [Hnames Himages]. destruct saved as [|[name image] saved];
        [done|].
      cbn in Hnames, Himages. injection Hnames as -> Hnames.
      apply Forall2_cons in Himages as [-> Himages]. cbn [mbind result_bind].
      rewrite (proj2 (IH (S pos) saved)) by done. done.
Qed.

(** X17.  [__generate_images] returns exactly when every token has a
    composite that is an image; the images it saves are then the composites
    of the tokens, one for each token and in the order of the set. *)
Theorem images_one_per_token (token_name : string)
    (token_data : list (list (token_trait Image))) :
  (∀ saved,
     __generate_images token_name token_data = Return saved →
     Forall2 (λ token image,
                reduce_images (slot_image <$> token) = Return (Some image))
             token_data saved.*2)
  ∧ (∀ images,
       Forall2 (λ token image,
                  reduce_images (slot_image <$> token) = Return (Some image))
               token_data images →
       ∃ saved, __generate_images token_name token_data = Return saved
                ∧ saved.*2 = images).
Proof.
  unfold __generate_images. split.
  - intros saved [_ Hall]%save_images_Return. by apply Forall2_fmap_l in Hall.
  - intros images Hall.
    exists (zip ((λ i, token_label token_name i +:+ ".png")
                   <$> seq 0 (length token_data)) images).
    assert (length images = length token_data) as Hlen.
    { symmetry. by eapply Forall2_length. }
    split; [|by rewrite snd_zip by (rewrite length_fmap, length_seq; lia)].
    apply save_images_Return. rewrite length_fmap.
    rewrite fst_zip, snd_zip by (rewrite length_fmap, length_seq; lia).
    split; [done|]. by apply Forall2_fmap_l.
Qed.


End images.

(** ** The outputs of a run together *)

Section outputs.
Context {sorting : ArgSort} {generator : BitGenerator}.

Lemma generated_rectangular {I} fuel (traits : list (trait I)) groups amount r
    (token_data : list (list (token_trait I))) :
  __get_normalized_rarity_weight_groups traits = Return groups →
  __generate_token_data fuel traits groups amount r
  = Some (Return token_data) →
  Forall (λ token, length token
                   = length (first_occurrences (trait_type <$> traits)))
         token_data.
Proof.
  intros Hgroups Hrun. apply Forall_forall. intros token Htoken.
  rewrite <-(generated_token_types _ _ _ _ _ _ _ Hgroups Hrun Htoken).
  by rewrite length_fmap.
Qed.

Lemma generated_outputs_return {I} fuel (traits : list (trait I)) groups
    amount r (token_data : list (list (token_trait I))) (token_name : string) :
  __get_normalized_rarity_weight_groups traits = Return groups →
  __generate_token_data fuel traits groups amount r
  = Some (Return token_data) →
  0 < amount →
  ∃ first trait_table count_table,
    token_data !! 0 = Some first
    ∧ __generate_metadata token_name token_data
      = Return (csv_cell <$> Some "Name"
                  :: filter (λ c, c ≠ Some "Name") (slot_type <$> first),
                imap (λ i token,
                        (λ k, csv_cell (dict_get (rowdict token_name i token) k
                                          (Some "")))
                          <$> Some "Name"
                                :: filter (λ c, c ≠ Some "Name")
                                          (slot_type <$> first))
                     token_data)
    ∧ __generate_statistics token_name token_data
      = Return (Statistics trait_table count_table
          (zip (token_label token_name <$> seq 0 (length token_data))
               ((λ token,
                   rarity_score (length token_data)
                     ((counted_trait_frequency token_data <$> token)
                      ++ [counted_count_frequency token_data token]))
                  <$> token_data))).
Proof.
  intros Hgroups Hrun Hamount.
  pose proof (generated_length _ _ _ _ _ _ Hrun) as Hlen.
  destruct token_data as [|first rest] eqn:Hdata; [simpl in Hlen; lia|].
  rewrite <-Hdata in *.
  assert (token_data !! 0 = Some first) as Hfirst by (by rewrite Hdata).
  assert (token_data ≠ []) as Hne by (by rewrite Hdata).
  clear Hdata rest.
  pose proof (generated_uniform _ _ _ _ _ _ _ Hgroups Hrun Hfirst) as Hall.
  pose proof (generated_rectangular _ _ _ _ _ _ Hgroups Hrun) as Hrect.
  destruct (statistics_returns token_name token_data _ Hne Hrect)
    as (trait_table & count_table & Hstats).
  exists first, trait_table, count_table. split_and!; [done| |done].
  by apply metadata_of_uniform_tokens.
Qed.

(** X19.  For a generated set of at least one token and a table without a
    type called [Name], the first column of [metadata.csv] and the first
    column of [rarity_scores.csv] hold the same names in the same order: the
    token name with the numbers 1 to the amount. *)
Theorem metadata_and_rarity_scores_name_the_same_tokens {I} fuel
    (traits : list (trait I)) groups amount r
    (token_data : list (list (token_trait I))) (token_name : string) :
  __get_normalized_rarity_weight_groups traits = Return groups →
  __generate_token_data fuel traits groups amount r
  = Some (Return token_data) →
  0 < amount →
  Some "Name" ∉ trait_type <$> traits →
  ∃ header rows stats,
    __generate_metadata token_name token_data = Return (header, rows)
    ∧ __generate_statistics token_name token_data = Return stats
    ∧ head <$> rows = Some <$> (rarity_scores_csv stats).*1
    ∧ (rarity_scores_csv stats).*1
      = token_label token_name <$> seq 0 amount.
Proof.
  intros Hgroups Hrun Hamount HName.
  destruct (generated_outputs_return _ _ _ _ _ _ token_name Hgroups Hrun Hamount)
    as (first & trait_table & count_table & Hfirst & Hmeta & Hstats).
  pose proof (generated_length _ _ _ _ _ _ Hrun) as Hlen.
  eexists _, _, _. split_and!; [exact Hmeta|exact Hstats| |].
  - cbn [rarity_scores_csv].
    rewrite fst_zip by (by rewrite !length_fmap, length_seq).
    rewrite fmap_imap. rewrite <-list_fmap_compose.
    apply list_eq. intros i. rewrite list_lookup_imap, list_lookup_fmap.
    destruct (token_data !! i) as [token|] eqn:Htoken.
    + rewrite lookup_seq_lt by (by eapply lookup_lt_Some). cbn.
      f_equal. f_equal.
      pose proof (list_elem_of_lookup_2 _ _ _ Htoken) as Hin.
      pose proof (generated_token_types _ _ _ _ _ _ _ Hgroups Hrun Hin)
        as Hperm.
      rewrite rowdict_get_Name; [done| |].
      * rewrite Hperm. apply NoDup_first_occurrences.
      * by rewrite Hperm, elem_of_first_occurrences.
    + rewrite lookup_seq_ge by (by apply lookup_ge_None). done.
  - cbn [rarity_scores_csv].
    rewrite fst_zip by (by rewrite !length_fmap, length_seq).
    by rewrite Hlen.
Qed.

(** X20.  Once the tokens of a run have been generated (the amount being at
    least one), writing the metadata and the statistics cannot fail: the
    outcome of [generate_content] is that of [__generate_images]. *)
Theorem content_fails_only_in_rendering {platform : Platform} (fuel : nat)
    (os_entropy : N) (now token_name in_file : string)
    (csv : list (list string)) (out_dir : string) (amount : nat)
    (seed : option N) (token_data : list (list (token_trait Image))) :
  0 < amount →
  generate_token_data_of fuel os_entropy in_file csv amount seed
  = Some (Return token_data) →
  ∃ metadata stats,
    __generate_metadata token_name token_data = Return metadata
    ∧ __generate_statistics token_name token_data = Return stats
    ∧ generate_content fuel os_entropy now token_name in_file csv out_dir
        amount seed
      = Some (images ← __generate_images token_name token_data;
              Return (Content (out_dir +:+ "/" +:+ token_name +:+ " " +:+ now)
                              token_data metadata stats images)).
Proof.
  intros Hamount Hrun. unfold generate_content. rewrite Hrun.
  unfold generate_token_data_of in Hrun.
  destruct (__load_traits in_file csv) as [traits|]; [|done].
  destruct (__get_normalized_rarity_weight_groups traits)
    as [groups|] eqn:Hgroups; [|done].
  destruct (generated_outputs_return _ _ _ _ _ _ token_name Hgroups Hrun Hamount)
    as (first & trait_table & count_table & _ & Hmeta & Hstats).
  eexists _, _. split_and!; [exact Hmeta|exact Hstats|].
  by rewrite Hmeta, Hstats.
Qed.

End outputs.

(** ** Metadata read back by [add_to_ipfs] *)

Lemma metadata_name_Some (record : list string) :
  is_Some (metadata_name record) ↔ length record = 9.
Proof.
  do 10 (destruct record as [|? record]; [cbn; split; [by intros [? [=]]|done]|]);
    cbn; split; try done; try (by intros [? [=]]); try (by eauto).
Qed.

Section generated_metadata_read_back.
Context {sorting : ArgSort} {generator : BitGenerator} {ipfs : Ipfs} {I : Type}.

(** X21.  [add_to_ipfs] reads the names from records of nine fields.  On the
    records of a [metadata.csv] that [__generate_metadata] wrote for a
    generated set (a table without a type called [Name]; the records read
    being the header and the rows written), it raises the [ClickException]
    'Invalid CSV file' before any image is added, unless the table has
    exactly eight trait types; with eight types the names it works on are the
    token names with the numbers 1 to the amount. *)
Theorem add_to_ipfs_needs_eight_trait_types fuel (traits : list (trait I))
    groups amount r (token_data : list (list (token_trait I)))
    (token_name final_dir : string) header rows :
  __get_normalized_rarity_weight_groups traits = Return groups →
  __generate_token_data fuel traits groups amount r
  = Some (Return token_data) →
  0 < amount →
  Some "Name" ∉ trait_type <$> traits →
  __generate_metadata token_name token_data = Return (header, rows) →
  (length (first_occurrences (trait_type <$> traits)) ≠ 8 →
   add_to_ipfs final_dir (header :: rows)
   = inl (Python (ClickException
                    ("Invalid CSV file: " ++ joinpath final_dir "metadata.csv"))))
  ∧ (length (first_occurrences (trait_type <$> traits)) = 8 →
     add_to_ipfs final_dir (header :: rows)
     = match ipfs_lines final_dir (token_label token_name <$> seq 0 amount) with
       | inl e => inl e
       | inr lines => inr (("Name,IPFS Hash" +:+ LF) :: lines)
       end).
Proof.
  intros Hgroups Hrun Hamount HName Hmeta.
  destruct (generated_outputs_return _ _ _ _ _ _ token_name Hgroups Hrun Hamount)
    as (first & _ & _ & Hfirst & Hmeta' & _).
  rewrite Hmeta in Hmeta'. injection Hmeta' as -> ->.
  pose proof (generated_length _ _ _ _ _ _ Hrun) as Hlen.
  pose proof (list_elem_of_lookup_2 _ _ _ Hfirst) as Hin_first.
  pose proof (generated_token_types _ _ _ _ _ _ _ Hgroups Hrun Hin_first)
    as Hperm_first.
  assert (filter (λ c, c ≠ Some "Name") (slot_type <$> first)
          = slot_type <$> first) as Hfilter.
  { apply filter_all, Forall_forall. intros c Hc ->.
    rewrite Hperm_first, elem_of_first_occurrences in Hc. done. }
  rewrite Hfilter.
  set (row := λ (i : nat) (token : list (token_trait I)),
         (λ k, csv_cell (dict_get (rowdict token_name i token) k (Some "")))
           <$> Some "Name" :: (slot_type <$> first)).
  assert (∀ i token, length (row i token)
                     = S (length (first_occurrences (trait_type <$> traits))))
    as Hwidth.
  { intros i token. unfold row. rewrite length_fmap. cbn.
    by rewrite Hperm_first. }
  split.
  - intros Hne. unfold add_to_ipfs.
    change (imap _ token_data) with (imap row token_data).
    assert (mapM metadata_name (imap row token_data) = None) as ->; [|done].
    apply mapM_None_exists.
    exists (row 0 first). split.
    + apply list_elem_of_lookup. exists 0. by rewrite list_lookup_imap, Hfirst.
    + apply eq_None_not_Some. rewrite metadata_name_Some, Hwidth. lia.
  - intros Height. unfold add_to_ipfs.
    change (imap _ token_data) with (imap row token_data).
    assert (mapM metadata_name (imap row token_data)
            = Some (token_label token_name <$> seq 0 amount)) as ->; [|done].
    apply mapM_Some. apply Forall2_fmap_r. rewrite <-Hlen.
    apply Forall2_same_length_lookup. split.
    { by rewrite length_imap, length_seq. }
    intros i record j Hrecord Hj.
    rewrite list_lookup_imap in Hrecord.
    destruct (token_data !! i) as [token|] eqn:Htoken; [|done].
    injection Hrecord as <-.
    apply lookup_seq in Hj as [-> _]. cbn [Nat.add].
    pose proof (list_elem_of_lookup_2 _ _ _ Htoken) as Hin.
    pose proof (generated_token_types _ _ _ _ _ _ _ Hgroups Hrun Hin) as Hperm.
    assert (length (slot_type <$> first) = 8) as Hcols.
    { by rewrite Hperm_first. }
    unfold row.
    destruct (slot_type <$> first) as [|c1 [|c2 [|c3 [|c4 [|c5 [|c6 [|c7 [|c8 [|? ?]]]]]]]]];
      try done.
    cbn [fmap list_fmap metadata_name]. f_equal.
    rewrite rowdict_get_Name; [done| |].
    + rewrite Hperm. apply NoDup_first_occurrences.
    + by rewrite Hperm, elem_of_first_occurrences.
Qed.

End generated_metadata_read_back.

(** ** Runs with one seed and different amounts *)

Section prefix.
Context {sorting : ArgSort} {generator : BitGenerator} {I : Type}.
Implicit Types traits : list (trait I).
Implicit Types groups : list weight_matrix.
Implicit Types token_data : list (list (trait I)).
Implicit Types generated_traits : gset (list (option string)).

(** The loop only appends to the tokens written. *)
Lemma sampling_loop_appends fuel traits groups amount generated_traits
    token_data r result :
  sampling_loop fuel traits groups amount generated_traits token_data r
  = Some (Return result) →
  ∃ rest, result = token_data ++ rest.
Proof.
  revert generated_traits token_data r.
  induction fuel as [|fuel IH]; intros generated_traits token_data r;
    rewrite sampling_loop_unfold; case_decide; try done.
  - intros [= <-]. exists []. by rewrite app_nil_r.
  - destruct (__get_random_traits traits groups r)
      as [[random_traits r']|]; [|done].
    case_decide.
    + apply IH.
    + intros (rest & ->)%IH. exists (random_traits :: rest).
      by rewrite <-(assoc_L (++)).
  - intros [= <-]. exists []. by rewrite app_nil_r.
Qed.

(** Two loops from one state, for the amounts [k ≤ n]: the tokens of the
    first are the first [k] tokens of the second. *)
Lemma sampling_loop_prefix fuel_n fuel_k traits groups (k n : nat)
    generated_traits token_data r result_k result_n :
  length token_data ≤ k → k ≤ n →
  sampling_loop fuel_n traits groups n generated_traits token_data r
  = Some (Return result_n) →
  sampling_loop fuel_k traits groups k generated_traits token_data r
  = Some (Return result_k) →
  result_k = take k result_n.
Proof.
  revert fuel_k generated_traits token_data r.
  induction fuel_n as [|fuel_n IH];
    intros fuel_k generated_traits token_data r Hlen Hkn;
    rewrite !(sampling_loop_unfold _ traits).
  - case_decide; [done|]. intros [= <-].
    rewrite decide_False by lia. intros [= <-].
    rewrite take_ge by lia. done.
  - destruct (decide (length token_data < k)) as [Hlt|Hge].
    + rewrite decide_True by lia.
      destruct fuel_k as [|fuel_k]; [done|].
      destruct (__get_random_traits traits groups r)
        as [[random_traits r']|]; [|done].
      case_decide.
      * by apply IH.
      * apply IH; [|done]. rewrite length_app. simpl. lia.
    + intros Hn [= <-]. assert (length token_data = k) as Hk by lia.
      assert (sampling_loop (S fuel_n) traits groups n generated_traits
                token_data r = Some (Return result_n)) as Hloop.
      { by rewrite sampling_loop_unfold. }
      apply sampling_loop_appends in Hloop as (rest & ->).
      by rewrite take_app_length' by done.
Qed.

End prefix.

Section prefix_of_runs.
Context {sorting : ArgSort} {generator : BitGenerator} {platform : Platform}.

(** X22.  Two runs on the same trait table with the same seed and the amounts
    [k ≤ n] that both return: the tokens of the first run are the first [k]
    tokens of the second. *)
Theorem larger_amount_extends_the_tokens (fuel_k fuel_n : nat)
    (os_entropy_k os_entropy_n : N) (in_file : string)
    (csv : list (list string)) (k n : nat) (seed : N)
    (tokens_k tokens_n : list (list (token_trait Image))) :
  k ≤ n →
  generate_token_data_of fuel_k os_entropy_k in_file csv k (Some seed)
  = Some (Return tokens_k) →
  generate_token_data_of fuel_n os_entropy_n in_file csv n (Some seed)
  = Some (Return tokens_n) →
  tokens_k = take k tokens_n.
Proof.
  intros Hkn. unfold generate_token_data_of, default_rng.
  cbn [default from_option]. unfold id.
  destruct (__load_traits in_file csv) as [traits|]; [|done].
  destruct (__get_normalized_rarity_weight_groups traits) as [groups|];
    [|done].
  unfold __generate_token_data.
  destruct (sampling_loop fuel_k traits groups k ∅ [] (seed_rng seed))
    as [[result_k|]|] eqn:Hk; [|done..].
  destruct (sampling_loop fuel_n traits groups n ∅ [] (seed_rng seed))
    as [[result_n|]|] eqn:Hn; [|done..].
  intros [= <-] [= <-].
  assert (length (@nil (list (trait Image))) ≤ k) as Hlen by (simpl; lia).
  rewrite (sampling_loop_prefix _ _ _ _ _ _ _ _ _ _ _ Hlen Hkn Hn Hk).
  by rewrite <-fmap_take.
Qed.

End prefix_of_runs.

(** ** The count of traits of a token *)

Section trait_count.
Context {sorting : ArgSort} {generator : BitGenerator} {platform : Platform}.

(** Every row of a token is a row of the table. *)
Lemma generated_rows {I} fuel (traits : list (trait I)) groups amount r
    (token_data : list (list (token_trait I))) token (t : token_trait I) :
  __generate_token_data fuel traits groups amount r
  = Some (Return token_data) →
  token ∈ token_data → t ∈ token →
  ∃ row, row ∈ traits ∧ t = delete_weight row.
Proof.
  unfold __generate_token_data.
  destruct (sampling_loop fuel traits groups amount ∅ [] r)
    as [[data|]|] eqn:Hloop; [|done..].
  intros [= <-] Htoken Ht.
  apply list_elem_of_fmap in Htoken as (rows & -> & Hrows).
  apply list_elem_of_fmap in Ht as (row & -> & Hrow).
  exists row. split; [|done].
  destruct (sampling_loop_inv _ _ _ _ _ _ _ _ Hloop) as (_ & _ & Hfrom).
  { intros names. cbn. rewrite elem_of_nil. set_solver. }
  { constructor. }
  destruct (Hfrom _ Hrows) as [Hnil|(r0 & r1 & Hdraw)];
    [by apply elem_of_nil in Hnil|].
  apply get_random_traits_Return in Hdraw as (indexes & _ & Hall).
  apply list_elem_of_lookup in Hrow as [j Hj].
  destruct (Forall2_lookup_r _ _ _ _ _ Hall Hj) as (i & _ & Hi).
  by eapply list_elem_of_lookup_2.
Qed.

(** No cell of a loaded table holds the empty string. *)
Lemma loaded_cells_not_empty (file_path : string) (csv : list (list string))
    (traits : list (trait Image)) :
  __load_traits file_path csv = Return traits →
  Forall (λ t, trait_name t ≠ Some "" ∧ trait_type t ≠ Some "") traits.
Proof.
  unfold __load_traits. destruct csv as [|header records]; [done|].
  destruct (mapM load_row records) as [rows|] eqn:Hrows; [|done].
  intros Himages.
  assert (mapM (load_image_column file_path) rows = Return traits) as Hload.
  { by destruct rows. }
  clear Himages. apply mapM_Some in Hrows. apply mapM_Return in Hload.
  apply Forall_forall. intros t (i & Hi)%list_elem_of_lookup_1.
  destruct (Forall2_lookup_r _ _ _ _ _ Hload Hi) as (row & Hrow & Ht).
  destruct (Forall2_lookup_r _ _ _ _ _ Hrows Hrow) as (record & _ & Hrec).
  apply load_image_column_Return in Ht as (Hty & Hnm & _). rewrite Hty, Hnm.
  apply load_row_Some in Hrec as (type & name & weight & path & _ & _ & ->).
  cbn.
  split; intros [-> ?]%or_None_Some; done.
Qed.

(** X23.  In the tokens generated from a loaded table no type and no name is
    the empty string, so that the count of traits that the statistics take
    for a token (the truthy names) is the number of its slots that have a
    name. *)
Theorem trait_count_is_number_of_named_slots (fuel : nat) (os_entropy : N)
    (in_file : string) (csv : list (list string)) (amount : nat)
    (seed : option N) (token_data : list (list (token_trait Image))) :
  generate_token_data_of fuel os_entropy in_file csv amount seed
  = Some (Return token_data) →
  ∀ token, token ∈ token_data →
    Forall (λ t, slot_name t ≠ Some "" ∧ slot_type t ≠ Some "") token
    ∧ count_nonzero token = described_trait_count token.
Proof.
  unfold generate_token_data_of.
  destruct (__load_traits in_file csv) as [traits|] eqn:Hload; [|done].
  destruct (__get_normalized_rarity_weight_groups traits) as [groups|];
    [|done].
  intros Hrun token Htoken.
  apply loaded_cells_not_empty in Hload.
  assert (Forall (λ t, slot_name t ≠ Some "" ∧ slot_type t ≠ Some "") token)
    as Hnames.
  { apply Forall_forall. intros t Ht.
    destruct (generated_rows _ _ _ _ _ _ _ _ Hrun Htoken Ht)
      as (row & Hrow & ->).
    eapply Forall_forall in Hload; [|exact Hrow]. exact Hload. }
  split; [done|].
  unfold count_nonzero, described_trait_count. f_equal.
  apply filter_ext_in. intros t Ht.
  eapply Forall_forall in Hnames as [Hname _]; [|exact Ht].
  unfold truthy. destruct (slot_name t) as [s|]; [|naive_solver].
  rewrite bool_decide_spec. split; [done|]. intros _ ->. done.
Qed.

End trait_count.

(** ** The properties on the example tables *)

Section evaluation.
Import Concrete Instances Example.

(** C4 (code defect).  The run on [hat_absent_csv] with seed 0 generates
    three tokens, the third without a hat.  The table of trait frequencies
    that the source writes for them has a row for the absent hat, under the
    name that [astype('U')] gives to [None]. *)
Theorem trait_frequencies_count_absent_slots :
  generate_token_data_of 40 0 "traits.csv" hat_absent_csv 3 (Some 0%N)
  = Some (Return hat_absent_tokens)
  ∧ __generate_trait_frequencies hat_absent_tokens
    = Return ([("Body", "Blue", 1); ("Body", "Red", 2);
               ("Hat", "Cap", 2); ("Hat", "None", 1)],
              [[2; 2]; [2; 1]; [2; 1]]).
Proof. split; vm_compute; reflexivity. Qed.

(** C7 (code defect).  For the third token of the same run, whose hat is
    absent, the source computes the rarity score 3/2 + 3/1 + 3/1: the absent
    slot contributes the term 3/1.  The score that the specification
    describes is 3/2 + 3/1. *)
Theorem rarity_score_counts_absent_slots :
  ∃ stats,
    __generate_statistics "Tok" hat_absent_tokens = Return stats
    ∧ rarity_scores_csv stats
      = [("Tok #1", Finite (36 # 8)); ("Tok #2", Finite (24 # 4));
         ("Tok #3", Finite (15 # 2))]
    ∧ (described_rarity_score hat_absent_tokens
         [(Some "Body", Some "Red", Some ["red.png"]); (Some "Hat", None, None)]
       == 9 # 2)%Q
    ∧ ¬ (15 # 2 == 9 # 2)%Q.
Proof.
  eexists. split_and!; [vm_compute; reflexivity|vm_compute; reflexivity|..];
    vm_compute; congruence.
Qed.

(** Against C1 as stated: in the run on [body_hat_csv] with seed 40000 the
    first token has its traits in the order Hat, Body and the second in the
    order Body, Hat, and the columns of the metadata are Name, Hat, Body;
    the types first occur in the table in the order Body, Hat. *)
Lemma token_order_is_not_first_occurrence_order :
  ∃ c,
    generate_content 20 0 "now" "Tok" "traits.csv" body_hat_csv "out" 2
      (Some 40000%N) = Some (Return c)
    ∧ map (map slot_type) (content_token_data c)
      = [[Some "Hat"; Some "Body"]; [Some "Body"; Some "Hat"]]
    ∧ (content_metadata c).1 = ["Name"; "Hat"; "Body"]
    ∧ content_images c
      = [("Tok #1.png", ["cap.png"; "blue.png"]);
         ("Tok #2.png", ["red.png"; "cap.png"])]
    ∧ first_occurrences (trait_type <$> body_hat) = [Some "Body"; Some "Hat"]
    ∧ ¬ (∀ token, token ∈ content_token_data c →
           slot_type <$> token = first_occurrences (trait_type <$> body_hat)).
Proof.
  eexists. split_and!; [vm_compute; reflexivity..|].
  intros Hall. specialize (Hall _ (list_elem_of_here _ _)). done.
Qed.

Lemma tokens_follow_row_order_witness :
  __get_normalized_rarity_weight_groups body_hat = Return body_hat_groups
  ∧ ∃ indexes,
      StronglySorted lt indexes
      ∧ Forall2 (λ i t, delete_weight <$> body_hat !! i = Some t) indexes
          [(Some "Hat", Some "Cap", Some ["cap.png"]);
           (Some "Body", Some "Blue", Some ["blue.png"])]
      ∧ slot_type <$> [(Some "Hat", Some "Cap", Some ["cap.png"]);
                       (Some "Body", Some "Blue", Some ["blue.png"])]
        ≡ₚ first_occurrences (trait_type <$> body_hat)
      ∧ (grouped (trait_type <$> body_hat) →
         slot_type <$> [(Some "Hat", Some "Cap", Some ["cap.png"]);
                        (Some "Body", Some "Blue", Some ["blue.png"])]
         = first_occurrences (trait_type <$> body_hat)).
Proof.
  split; [vm_compute; reflexivity|].
  refine (proj1 (tokens_follow_row_order 20 body_hat body_hat_groups 2
                   (seed_rng 40000%N)
                   [[(Some "Hat", Some "Cap", Some ["cap.png"]);
                     (Some "Body", Some "Blue", Some ["blue.png"])];
                    [(Some "Body", Some "Red", Some ["red.png"]);
                     (Some "Hat", Some "Cap", Some ["cap.png"])]] _ _) _ _).
  - vm_compute; reflexivity.
  - vm_compute; reflexivity.
  - left.
Defined.


(** Against C5 as stated: the run on [no_image_csv] fails with an
    [AttributeError], not with a [NoVisibleLayersError]. *)
Lemma no_visible_layers_is_an_AttributeError :
  generate_token_data_of 20 0 "traits.csv" no_image_csv 1 (Some 0%N)
  = Some (Return [no_image_token])
  ∧ __generate_images (platform := layered) "Tok" [no_image_token] = Raise AttributeError
  ∧ generate_content 20 0 "now" "Tok" "traits.csv" no_image_csv "out" 1
      (Some 0%N) = Some (Raise AttributeError)
  ∧ __generate_images (platform := layered) "Tok" [no_image_token] ≠ Raise NoVisibleLayersError.
Proof. split_and!; [vm_compute; reflexivity..|done]. Qed.

Lemma absent_layers_raise_AttributeError_witness :
  no_image_token ≠ []
  ∧ Forall (λ t, slot_image t = None) no_image_token
  ∧ __generate_images (platform := layered) "Tok" [] = Return []
  ∧ __generate_images (platform := layered) "Tok" ([] ++ no_image_token :: [])
    = Raise AttributeError.
Proof.
  split_and!; [done|by repeat constructor|reflexivity|].
  apply (absent_layers_raise_AttributeError (H1 := layered) "Tok" [] []
           no_image_token []);
    [done|by repeat constructor|reflexivity].
Defined.





Lemma zero_weight_never_selected_witness :
  __get_normalized_rarity_weight_groups with_zero = Return with_zero_groups
  ∧ (0 < category_total with_zero (Some "Body"))%Z
  ∧ ∀ r indexes r',
      random_trait_indexes with_zero_groups r = Return (indexes, r') →
      1 ∉ indexes.
Proof.
  split_and!; [vm_compute; reflexivity|reflexivity|].
  apply (zero_weight_never_selected with_zero with_zero_groups 1
           (Trait (Some "Body") (Some "Blue") 0 (Some ["blue.png"])));
    [vm_compute; reflexivity|reflexivity|reflexivity|reflexivity].
Defined.

End evaluation.

(** ** The further properties on the example tables *)

Section further_evaluation.
Import Concrete Instances Example.

Lemma load_traits_rows_witness :
  __load_traits "traits.csv" body_hat_csv = Return body_hat
  ∧ ∃ header records,
      body_hat_csv = header :: records ∧ records ≠ []
      ∧ Forall2 (loaded_from "traits.csv") records body_hat.
Proof.
  assert (__load_traits "traits.csv" body_hat_csv = Return body_hat) as Hload
    by (vm_compute; reflexivity).
  split; [exact Hload|].
  exact (load_traits_rows "traits.csv" body_hat_csv body_hat Hload).
Defined.


Lemma groups_partition_rows_by_type_witness :
  __get_normalized_rarity_weight_groups body_hat = Return body_hat_groups
  ∧ concat ((λ g : weight_matrix, g.*1) <$> body_hat_groups) ≡ₚ seq 0 3
  ∧ length body_hat_groups = 2.
Proof.
  assert (__get_normalized_rarity_weight_groups body_hat
          = Return body_hat_groups) as Hgroups by (vm_compute; reflexivity).
  split; [exact Hgroups|].
  destruct (groups_partition_rows_by_type body_hat body_hat_groups Hgroups)
    as (Hperm & Hlen & _).
  split; [exact Hperm|exact Hlen].
Defined.





Lemma body_hat_run :
  __generate_token_data 20 body_hat body_hat_groups 2 (seed_rng 0%N)
  = Some (Return body_hat_tokens).
Proof. vm_compute; reflexivity. Qed.

Lemma metadata_rows_follow_header_witness :
  __generate_token_data 20 body_hat body_hat_groups 2 (seed_rng 0%N)
  = Some (Return body_hat_tokens)
  ∧ (Some "Name" ∉ trait_type <$> body_hat)
  ∧ ∃ header rows,
      __generate_metadata "Tok" body_hat_tokens = Return (header, rows)
      ∧ header = ["Name"; "Body"; "Hat"]
      ∧ length rows = 2.
Proof.
  assert (__get_normalized_rarity_weight_groups body_hat
          = Return body_hat_groups) as Hgroups by (vm_compute; reflexivity).
  assert (Some "Name" ∉ trait_type <$> body_hat) as HName.
  { cbn. rewrite !not_elem_of_cons. split_and!; [done..|apply not_elem_of_nil]. }
  split_and!; [exact body_hat_run|exact HName|].
  destruct (metadata_rows_follow_header 20 body_hat body_hat_groups 2
              (seed_rng 0%N) body_hat_tokens "Tok" Hgroups body_hat_run)
    as (first & header & rows & Hfirst & Hmeta & Hheader & Hlen & _);
    [lia|exact HName|].
  injection Hfirst as <-.
  exists header, rows. split_and!; [exact Hmeta|exact Hheader|exact Hlen].
Defined.

Lemma metadata_type_called_Name_witness :
  __get_normalized_rarity_weight_groups name_type
  = Return [[(2, Finite (1 / 1))]; [(0, Finite (1 # 2)); (1, Finite (1 # 2))]]
  ∧ (Some "Name" ∈ trait_type <$> name_type)
  ∧ ∃ token_data header rows,
      __generate_token_data 20 name_type
        [[(2, Finite (1 / 1))]; [(0, Finite (1 # 2)); (1, Finite (1 # 2))]]
        2 (seed_rng 0%N) = Some (Return token_data)
      ∧ __generate_metadata "Tok" token_data = Return (header, rows)
      ∧ header = ["Name"; "Hat"]
      ∧ head <$> rows = [Some "Alice"; Some "Bob"].
Proof.
  assert (__get_normalized_rarity_weight_groups name_type
          = Return [[(2, Finite (1 / 1))];
                    [(0, Finite (1 # 2)); (1, Finite (1 # 2))]]) as Hgroups
    by (vm_compute; reflexivity).
  assert (Some "Name" ∈ trait_type <$> name_type) as HName by left.
  split_and!; [exact Hgroups|exact HName|].
  eexists.
  assert (__generate_token_data 20 name_type
            [[(2, Finite (1 / 1))]; [(0, Finite (1 # 2)); (1, Finite (1 # 2))]]
            2 (seed_rng 0%N)
          = Some (Return
              [[(Some "Name", Some "Alice", Some ["alice.png"]);
                (Some "Hat", Some "Cap", Some ["cap.png"])];
               [(Some "Name", Some "Bob", Some ["bob.png"]);
                (Some "Hat", Some "Cap", Some ["cap.png"])]])) as Hrun
    by (vm_compute; reflexivity).
  destruct (metadata_type_called_Name 20 name_type _ 2 (seed_rng 0%N) _ "Tok"
              Hgroups Hrun)
    as (first & header & rows & Hfirst & Hmeta & Hheader & _ & _);
    [lia|exact HName|].
  injection Hfirst as <-.
  exists header, rows. split_and!; [exact Hrun|exact Hmeta|exact Hheader|].
  revert Hmeta. vm_compute. by intros [= _ <-].
Defined.

Lemma trait_frequencies_count_all_slots_witness :
  hat_absent_tokens ≠ []
  ∧ Forall (λ token, length token = 2) hat_absent_tokens
  ∧ ∃ table,
      __generate_trait_frequencies hat_absent_tokens
      = Return (table,
                (λ token : list (token_trait layers),
                   counted_trait_frequency hat_absent_tokens <$> token)
                  <$> hat_absent_tokens).
Proof.
  assert (hat_absent_tokens ≠ []) as Hne by done.
  assert (Forall (λ token : list (token_trait layers), length token = 2)
            hat_absent_tokens) as Hall by (by repeat constructor).
  split_and!; [exact Hne|exact Hall|].
  destruct (trait_frequencies_count_all_slots hat_absent_tokens 2 Hne Hall)
    as (table & Heq & _).
  exists table. exact Heq.
Defined.

Lemma trait_frequency_table_witness :
  __generate_trait_frequencies hat_absent_tokens
  = Return ([("Body", "Blue", 1); ("Body", "Red", 2);
             ("Hat", "Cap", 2); ("Hat", "None", 1)],
            [[2; 2]; [2; 1]; [2; 1]])
  ∧ sum_list [1; 2; 2; 1] = length (concat hat_absent_tokens).
Proof.
  assert (__generate_trait_frequencies hat_absent_tokens
          = Return ([("Body", "Blue", 1); ("Body", "Red", 2);
                     ("Hat", "Cap", 2); ("Hat", "None", 1)],
                    [[2; 2]; [2; 1]; [2; 1]])) as Heq
    by (vm_compute; reflexivity).
  split; [exact Heq|].
  exact (proj2 (proj2 (trait_frequency_table hat_absent_tokens _ _ Heq))).
Defined.

Lemma rarity_scores_count_all_slots_witness :
  hat_absent_tokens ≠ []
  ∧ Forall (λ token, length token = 2) hat_absent_tokens
  ∧ ∃ stats,
      __generate_statistics "Tok" hat_absent_tokens = Return stats
      ∧ (rarity_scores_csv stats).*1 = ["Tok #1"; "Tok #2"; "Tok #3"].
Proof.
  assert (hat_absent_tokens ≠ []) as Hne by done.
  assert (Forall (λ token : list (token_trait layers), length token = 2)
            hat_absent_tokens) as Hall by (by repeat constructor).
  split_and!; [exact Hne|exact Hall|].
  destruct (rarity_scores_count_all_slots "Tok" hat_absent_tokens 2 Hne Hall)
    as (stats & Heq & Hnames & _).
  exists stats. split; [exact Heq|exact Hnames].
Defined.

Lemma metadata_and_rarity_scores_name_the_same_tokens_witness :
  __generate_token_data 20 body_hat body_hat_groups 2 (seed_rng 0%N)
  = Some (Return body_hat_tokens)
  ∧ ∃ header rows stats,
      __generate_metadata "Tok" body_hat_tokens = Return (header, rows)
      ∧ __generate_statistics "Tok" body_hat_tokens = Return stats
      ∧ head <$> rows = Some <$> (rarity_scores_csv stats).*1
      ∧ (rarity_scores_csv stats).*1 = token_label "Tok" <$> seq 0 2.
Proof.
  split; [exact body_hat_run|].
  apply (metadata_and_rarity_scores_name_the_same_tokens 20 body_hat
           body_hat_groups 2 (seed_rng 0%N) body_hat_tokens "Tok").
  - vm_compute; reflexivity.
  - exact body_hat_run.
  - lia.
  - cbn. rewrite !not_elem_of_cons. split_and!; [done..|apply not_elem_of_nil].
Defined.



Lemma content_fails_only_in_rendering_witness :
  generate_token_data_of 20 0 "traits.csv" no_image_csv 1 (Some 0%N)
  = Some (Return [no_image_token])
  ∧ ∃ metadata stats,
      __generate_metadata "Tok" [no_image_token] = Return metadata
      ∧ __generate_statistics "Tok" [no_image_token] = Return stats
      ∧ generate_content 20 0 "now" "Tok" "traits.csv" no_image_csv "out" 1
          (Some 0%N)
        = Some (Raise AttributeError).
Proof.
  assert (generate_token_data_of 20 0 "traits.csv" no_image_csv 1 (Some 0%N)
          = Some (Return [no_image_token])) as Hrun
    by (vm_compute; reflexivity).
  split; [exact Hrun|].
  destruct (content_fails_only_in_rendering (platform := layered) 20 0 "now"
              "Tok" "traits.csv" no_image_csv "out" 1 (Some 0%N)
              [no_image_token] ltac:(lia) Hrun)
    as (metadata & stats & Hmeta & Hstats & Hcontent).
  exists metadata, stats. split_and!; [exact Hmeta|exact Hstats|].
  rewrite Hcontent. reflexivity.
Defined.

Lemma add_to_ipfs_needs_eight_trait_types_witness :
  __generate_token_data 20 body_hat body_hat_groups 2 (seed_rng 0%N)
  = Some (Return body_hat_tokens)
  ∧ __generate_metadata "Tok" body_hat_tokens
    = Return (["Name"; "Body"; "Hat"],
              [["Tok #1"; "Red"; "Cap"]; ["Tok #2"; "Blue"; "Cap"]])
  ∧ length (first_occurrences (trait_type <$> body_hat)) = 2
  ∧ add_to_ipfs "out"
      (["Name"; "Body"; "Hat"]
       :: [["Tok #1"; "Red"; "Cap"]; ["Tok #2"; "Blue"; "Cap"]])
    = inl (Python (ClickException "Invalid CSV file: out/metadata.csv")).
Proof.
  assert (__generate_metadata "Tok" body_hat_tokens
          = Return (["Name"; "Body"; "Hat"],
                    [["Tok #1"; "Red"; "Cap"]; ["Tok #2"; "Blue"; "Cap"]]))
    as Hmeta by (vm_compute; reflexivity).
  assert (__get_normalized_rarity_weight_groups body_hat
          = Return body_hat_groups) as Hgroups by (vm_compute; reflexivity).
  assert (Some "Name" ∉ trait_type <$> body_hat) as HName.
  { cbn. rewrite !not_elem_of_cons. split_and!; [done..|apply not_elem_of_nil]. }
  split_and!; [exact body_hat_run|exact Hmeta|reflexivity|].
  apply (proj1 (add_to_ipfs_needs_eight_trait_types 20 body_hat
                  body_hat_groups 2 (seed_rng 0%N) body_hat_tokens "Tok" "out"
                  _ _ Hgroups body_hat_run ltac:(lia) HName Hmeta)).
  vm_compute. lia.
Defined.

Lemma trait_count_is_number_of_named_slots_witness :
  generate_token_data_of 40 0 "traits.csv" hat_absent_csv 3 (Some 0%N)
  = Some (Return hat_absent_tokens)
  ∧ count_nonzero [(Some "Body", Some "Red", Some ["red.png"]);
                   (Some "Hat", @None string, @None layers)]
    = described_trait_count
        [(Some "Body", Some "Red", Some ["red.png"]);
         (Some "Hat", @None string, @None layers)].
Proof.
  assert (generate_token_data_of 40 0 "traits.csv" hat_absent_csv 3 (Some 0%N)
          = Some (Return hat_absent_tokens)) as Hrun
    by (vm_compute; reflexivity).
  split; [exact Hrun|].
  refine (proj2 (trait_count_is_number_of_named_slots 40 0 "traits.csv"
                   hat_absent_csv 3 (Some 0%N) hat_absent_tokens Hrun _ _)).
  right. right. left.
Defined.

Lemma larger_amount_extends_the_tokens_witness :
  generate_token_data_of 20 0 "traits.csv" body_hat_csv 1 (Some 40000%N)
  = Some (Return
      [[(Some "Hat", Some "Cap", Some ["cap.png"]);
        (Some "Body", Some "Blue", Some ["blue.png"])]])
  ∧ generate_token_data_of 20 0 "traits.csv" body_hat_csv 2 (Some 40000%N)
    = Some (Return
        [[(Some "Hat", Some "Cap", Some ["cap.png"]);
          (Some "Body", Some "Blue", Some ["blue.png"])];
         [(Some "Body", Some "Red", Some ["red.png"]);
          (Some "Hat", Some "Cap", Some ["cap.png"])]])
  ∧ [[(Some "Hat", Some "Cap", Some ["cap.png"]);
      (Some "Body", Some "Blue", Some ["blue.png"])]]
    = take 1
        [[(Some "Hat", Some "Cap", Some ["cap.png"]);
          (Some "Body", Some "Blue", Some ["blue.png"])];
         [(Some "Body", Some "Red", Some ["red.png"]);
          (Some "Hat", Some "Cap", Some ["cap.png"])]].
Proof.
  assert (generate_token_data_of 20 0 "traits.csv" body_hat_csv 1
            (Some 40000%N)
          = Some (Return
              [[(Some "Hat", Some "Cap", Some ["cap.png"]);
                (Some "Body", Some "Blue", Some ["blue.png"])]])) as Hk
    by (vm_compute; reflexivity).
  assert (generate_token_data_of 20 0 "traits.csv" body_hat_csv 2
            (Some 40000%N)
          = Some (Return
              [[(Some "Hat", Some "Cap", Some ["cap.png"]);
                (Some "Body", Some "Blue", Some ["blue.png"])];
               [(Some "Body", Some "Red", Some ["red.png"]);
                (Some "Hat", Some "Cap", Some ["cap.png"])]])) as Hn
    by (vm_compute; reflexivity).
  split_and!; [exact Hk|exact Hn|].
  refine (larger_amount_extends_the_tokens 20 20 0 0 "traits.csv" body_hat_csv
            1 2 40000%N _ _ _ Hk Hn).
  lia.
Defined.

End further_evaluation.
